(** * Emoji remapping for structured text files

    A shallow embedding of [emojis/emoji_manager.py] and the properties of
    its scanner, mapping builder, substitution step, format handlers and
    driver.

    Python strings are sequences of Unicode code points: a [str] is a list
    of code points, each a [Z].  Dictionaries are finite maps ([gmap]), the
    [set] of [get_emojis_in_order] is a [gset], the [deque] of
    [build_emoji_map] a list whose head is the left end.  A raised exception
    is [None]. *)

From Stdlib Require Import ZArith List String Ascii Lia Floats.
From stdpp Require Import base option list gmap sets.
From Equations Require Import Equations.

Local Open Scope Z_scope.

(** ** Strings *)

Abbreviation str := (list Z).

(** An ASCII literal as a Python string. *)
Definition lit (s : string) : str :=
  List.map (fun a => Z.of_N (N_of_ascii a)) (list_ascii_of_string s).

(** ** The emoji pool (lines 11-38) *)

Definition EMOJI_ANIMALS_NATURE : list str :=
  [ [0x1F436]; [0x1F431]; [0x1F42D]; [0x1F439]; [0x1F430];
    [0x1F98A]; [0x1F43B]; [0x1F43C]; [0x1F428]; [0x1F42F];
    [0x1F981]; [0x1F42E]; [0x1F437]; [0x1F438]; [0x1F435];
    [0x1F984]; [0x1F414]; [0x1F427]; [0x1F426]; [0x1F424] ].

Definition EMOJI_FOOD_DRINK : list str :=
  [ [0x1F34F]; [0x1F34E]; [0x1F350]; [0x1F34A]; [0x1F34B];
    [0x1F34C]; [0x1F349]; [0x1F347]; [0x1F353]; [0x1FAD0];
    [0x1F348]; [0x1F352]; [0x1F351]; [0x1F96D]; [0x1F34D];
    [0x1F965]; [0x1F95D]; [0x1F345]; [0x1F346]; [0x1F951] ].

Definition EMOJI_ACTIVITY : list str :=
  [ [0x26BD]; [0x1F3C0]; [0x1F3C8]; [0x26BE]; [0x1F3BE];
    [0x1F3D0]; [0x1F3C9]; [0x1F3B1]; [0x1F3D3]; [0x1F3F8];
    [0x1F945]; [0x1F3D2]; [0x1F3D1]; [0x1F3CF]; [0x26F3];
    [0x1F3F9]; [0x1F3A3]; [0x1F93F]; [0x1F94A]; [0x1F94B] ].

Definition EMOJI_OBJECTS : list str :=
  [ [0x231A]; [0x1F4F1]; [0x1F4BB]; [0x1F5A8; 0xFE0F]; [0x1F579; 0xFE0F];
    [0x1F3AE]; [0x1F4F7]; [0x1F4F8]; [0x1F4F9]; [0x1F3A5];
    [0x1F4FA]; [0x1F4FB]; [0x1F399; 0xFE0F]; [0x1F39A; 0xFE0F];
    [0x1F39B; 0xFE0F]; [0x260E; 0xFE0F]; [0x1F4DE]; [0x1F4DF]; [0x1F4E0];
    [0x1F50B] ].

Definition EMOJI_PLACES : list str :=
  [ [0x1F697]; [0x1F695]; [0x1F699]; [0x1F68C]; [0x1F68E];
    [0x1F3CE; 0xFE0F]; [0x1F693]; [0x1F691]; [0x1F692]; [0x1F690];
    [0x1F6FB]; [0x1F69A]; [0x1F69B]; [0x1F69C]; [0x1F3CD; 0xFE0F];
    [0x1F6F5]; [0x1F6B2]; [0x1F6F4]; [0x1F6A8]; [0x1F694] ].

Definition ANDROID_EMOJI_POOL : list str :=
  EMOJI_ANIMALS_NATURE ++ EMOJI_FOOD_DRINK ++ EMOJI_ACTIVITY ++
  EMOJI_OBJECTS ++ EMOJI_PLACES.

(** ** The scanner (lines 41-60) *)

Definition in_range (lo hi c : Z) : bool := (lo <=? c) && (c <=? hi).

(** The character class of [EMOJI_REGEX], one disjunct per range. *)
Definition emoji_class (c : Z) : bool :=
  in_range 0x1F300 0x1F5FF c || in_range 0x1F600 0x1F64F c ||
  in_range 0x1F680 0x1F6FF c || in_range 0x1F700 0x1F77F c ||
  in_range 0x1F780 0x1F7FF c || in_range 0x1F800 0x1F8FF c ||
  in_range 0x1F900 0x1F9FF c || in_range 0x1FA00 0x1FA6F c ||
  in_range 0x1FA70 0x1FAFF c || in_range 0x2702 0x27B0 c ||
  in_range 0x24C2 0x1F251 c.

(** [EMOJI_REGEX] is [[class]+]: at a position whose character is in the
    class the greedy [+] takes every following character of the class. *)
Fixpoint class_run (text : str) : str :=
  match text with
  | c :: rest => if emoji_class c then c :: class_run rest else []
  | [] => []
  end.

Fixpoint after_run (text : str) : str :=
  match text with
  | c :: rest => if emoji_class c then after_run rest else text
  | [] => []
  end.

(** [EMOJI_REGEX.sub(repl, text)]: the text is scanned from the left; where
    the pattern matches, the match is replaced by [repl match] and the scan
    resumes after it, elsewhere the character is copied. *)
Equations? regex_sub (repl : str -> str) (text : str) : str
  by wf (length text) lt :=
regex_sub repl [] := [];
regex_sub repl (c :: rest) :=
  if emoji_class c
  then repl (c :: class_run rest) ++ regex_sub repl (after_run rest)
  else c :: regex_sub repl rest.
Proof.
  all: assert (length (after_run rest) <= length rest)%nat
    by (clear; induction rest as [|c' rest' IH]; simpl;
        [|destruct (emoji_class c'); simpl]; lia); lia.
Qed.

(** [EMOJI_REGEX.findall(text)]: the matches, from left to right. *)
Equations? regex_findall (text : str) : list str
  by wf (length text) lt :=
regex_findall [] := [];
regex_findall (c :: rest) :=
  if emoji_class c
  then (c :: class_run rest) :: regex_findall (after_run rest)
  else regex_findall rest.
Proof.
  all: assert (length (after_run rest) <= length rest)%nat
    by (clear; induction rest as [|c' rest' IH]; simpl;
        [|destruct (emoji_class c'); simpl]; lia); lia.
Qed.

Definition extract_emojis (text : str) : list str := regex_findall text.


(** ** The mapping builder (lines 62-74) *)

(** The loop state: the dictionary [emoji_map] and the deque [pool]. *)
Abbreviation build_state := (gmap str str * list str)%type.

(** One iteration of the loop.  [popleft] on an empty deque raises
    [IndexError]. *)
Definition build_step (st : build_state) (emoji : str) : option build_state :=
  let '(emoji_map, pool) := st in
  match emoji_map !! emoji with
  | Some _ => Some (emoji_map, pool)
  | None =>
      match pool with
      | [] => None
      | new_emoji :: pool' =>
          Some (<[emoji := new_emoji]> emoji_map, pool' ++ [new_emoji])
      end
  end.

Fixpoint build_loop (original_emojis : list str) (st : build_state)
  : option build_state :=
  match original_emojis with
  | [] => Some st
  | emoji :: rest =>
      match build_step st emoji with
      | Some st' => build_loop rest st'
      | None => None
      end
  end.

Definition build_emoji_map (original_emojis emoji_pool : list str)
  : option (gmap str str) :=
  fst <$> build_loop original_emojis (∅, emoji_pool).

(** ** The substitution step (lines 76-81) *)

(** [emoji_map.get(emoji, emoji)] *)
Definition replace_fn (emoji_map : gmap str str) (emoji : str) : str :=
  match emoji_map !! emoji with
  | Some new_emoji => new_emoji
  | None => emoji
  end.

Definition replace_emojis (text : str) (emoji_map : gmap str str) : str :=
  regex_sub (replace_fn emoji_map) text.

(** ** Distinct emojis in order of appearance (lines 83-91) *)

(** One iteration of the loop over the matches, on the state
    [(seen, ordered)]. *)
Definition order_step (st : gset str * list str) (em : str)
  : gset str * list str :=
  let '(seen, ordered) := st in
  if decide (em ∈ seen) then (seen, ordered)
  else ({[em]} ∪ seen, ordered ++ [em]).

Definition order_loop (matches : list str) (st : gset str * list str)
  : gset str * list str :=
  foldl order_step st matches.

Definition get_emojis_in_order (text : str) : list str :=
  snd (order_loop (regex_findall text) (∅, [])).

(** The same loop run on a list of emojis instead of the matches of a
    text. *)
Definition distinct_in_order (emojis : list str) : list str :=
  snd (order_loop emojis (∅, [])).

(** The emojis of a list that are not in [seen], each at its first
    occurrence: what the loop appends to [ordered]. *)
Fixpoint fresh_firsts (seen : gset str) (emojis : list str) : list str :=
  match emojis with
  | [] => []
  | em :: rest =>
      if decide (em ∈ seen) then fresh_firsts seen rest
      else em :: fresh_firsts ({[em]} ∪ seen) rest
  end.

(** ** The file system and the console *)

(** Files by path, the directories, and the lines printed so far. *)
Record world := World {
  files : gmap str str;
  dirs : gset str;
  stdout : list str
}.

Definition path_join (dir name : str) : str := dir ++ lit "/" ++ name.

(** [load_file] (lines 93-95); a file that cannot be read raises. *)
Definition load_file (w : world) (filepath : str) : option str :=
  files w !! filepath.

(** [save_file] (lines 97-99) *)
Definition save_file (w : world) (filepath content : str) : world :=
  World (<[filepath := content]> (files w)) (dirs w) (stdout w).

Definition print (w : world) (line : str) : world :=
  World (files w) (dirs w) (stdout w ++ [line]).

(** [os.makedirs(path, exist_ok=True)] *)
Definition makedirs (w : world) (path : str) : world :=
  World (files w) ({[path]} ∪ dirs w) (stdout w).

(** ** JSON (lines 101-114) *)

Inductive number :=
| PyInt (n : Z)
| PyFloat (f : float).

(** What [json.load] returns.  A [dict] is the list of its items in
    insertion order; its keys are distinct. *)
#[warnings="-register-all"]
Inductive json :=
| JNone
| JBool (b : bool)
| JNumber (n : number)
| JStr (s : str)
| JList (items : list json)
| JDict (items : list (str * json)).

(** [d[k] = v] on the items of a dict: the value of a key that is present
    is replaced in place, a new key is added at the end. *)
Fixpoint dict_set {A} (d : list (str * A)) (k : str) (v : A) : list (str * A) :=
  match d with
  | [] => [(k, v)]
  | (k', v') :: d' =>
      if decide (k' = k) then (k', v) :: d' else (k', v') :: dict_set d' k v
  end.

(** [{k: v for k, v in items}] *)
Definition dict_of_items {A} (items : list (str * A)) : list (str * A) :=
  foldl (λ d kv, dict_set d kv.1 kv.2) [] items.

Fixpoint recursive_replace (emoji_map : gmap str str) (obj : json) : json :=
  match obj with
  | JStr s => JStr (replace_emojis s emoji_map)
  | JList items => JList (List.map (recursive_replace emoji_map) items)
  | JDict items =>
      JDict (dict_of_items
               (List.map (λ kv, (fst kv, recursive_replace emoji_map (snd kv)))
                         items))
  | _ => obj
  end.

(** The keys of every dict of a document are distinct, as they are in what
    [json.load] returns. *)
Fixpoint distinct_keys (obj : json) : bool :=
  match obj with
  | JList items => forallb distinct_keys items
  | JDict items =>
      bool_decide (NoDup (List.map fst items)) &&
      forallb (λ kv, distinct_keys (snd kv)) items
  | _ => true
  end.

(** The document with the content of every string leaf erased: keys,
    nesting, array lengths and the scalars that are not strings remain. *)
Fixpoint shape (obj : json) : json :=
  match obj with
  | JStr _ => JStr []
  | JList items => JList (List.map shape items)
  | JDict items => JDict (List.map (λ kv, (fst kv, shape (snd kv))) items)
  | _ => obj
  end.

(** The string leaves of a document, in document order. *)
Fixpoint string_leaves (obj : json) : list str :=
  match obj with
  | JStr s => [s]
  | JList items => flat_map string_leaves items
  | JDict items => flat_map (λ kv, string_leaves (snd kv)) items
  | _ => []
  end.

(** ** [html.unescape], which [html.parser] applies to character data *)

(** [_invalid_charrefs] *)
Definition invalid_charrefs : list (Z * str) :=
  [ (0x00, [0xFFFD]); (0x0D, [0xD]); (0x80, [0x20AC]); (0x81, [0x81]);
    (0x82, [0x201A]); (0x83, [0x192]); (0x84, [0x201E]); (0x85, [0x2026]);
    (0x86, [0x2020]); (0x87, [0x2021]); (0x88, [0x2C6]); (0x89, [0x2030]);
    (0x8A, [0x160]); (0x8B, [0x2039]); (0x8C, [0x152]); (0x8D, [0x8D]);
    (0x8E, [0x17D]); (0x8F, [0x8F]); (0x90, [0x90]); (0x91, [0x2018]);
    (0x92, [0x2019]); (0x93, [0x201C]); (0x94, [0x201D]); (0x95, [0x2022]);
    (0x96, [0x2013]); (0x97, [0x2014]); (0x98, [0x2DC]); (0x99, [0x2122]);
    (0x9A, [0x161]); (0x9B, [0x203A]); (0x9C, [0x153]); (0x9D, [0x9D]);
    (0x9E, [0x17E]); (0x9F, [0x178]) ].

(** [_invalid_codepoints] *)
Definition invalid_codepoints : list Z :=
  [ 0x1; 0x2; 0x3; 0x4; 0x5; 0x6; 0x7; 0x8; 0xE; 0xF;
    0x10; 0x11; 0x12; 0x13; 0x14; 0x15; 0x16; 0x17; 0x18; 0x19;
    0x1A; 0x1B; 0x1C; 0x1D; 0x1E; 0x1F; 0x7F; 0x80; 0x81; 0x82;
    0x83; 0x84; 0x85; 0x86; 0x87; 0x88; 0x89; 0x8A; 0x8B; 0x8C;
    0x8D; 0x8E; 0x8F; 0x90; 0x91; 0x92; 0x93; 0x94; 0x95; 0x96;
    0x97; 0x98; 0x99; 0x9A; 0x9B; 0x9C; 0x9D; 0x9E; 0x9F; 0xFDD0;
    0xFDD1; 0xFDD2; 0xFDD3; 0xFDD4; 0xFDD5; 0xFDD6; 0xFDD7; 0xFDD8; 0xFDD9; 0xFDDA;
    0xFDDB; 0xFDDC; 0xFDDD; 0xFDDE; 0xFDDF; 0xFDE0; 0xFDE1; 0xFDE2; 0xFDE3; 0xFDE4;
    0xFDE5; 0xFDE6; 0xFDE7; 0xFDE8; 0xFDE9; 0xFDEA; 0xFDEB; 0xFDEC; 0xFDED; 0xFDEE;
    0xFDEF; 0xB; 0xFFFE; 0xFFFF; 0x1FFFE; 0x1FFFF; 0x2FFFE; 0x2FFFF; 0x3FFFE; 0x3FFFF;
    0x4FFFE; 0x4FFFF; 0x5FFFE; 0x5FFFF; 0x6FFFE; 0x6FFFF; 0x7FFFE; 0x7FFFF; 0x8FFFE; 0x8FFFF;
    0x9FFFE; 0x9FFFF; 0xAFFFE; 0xAFFFF; 0xBFFFE; 0xBFFFF; 0xCFFFE; 0xCFFFF; 0xDFFFE; 0xDFFFF;
    0xEFFFE; 0xEFFFF; 0xFFFFE; 0xFFFFF; 0x10FFFE; 0x10FFFF ].

Definition is_digit (c : Z) : bool := in_range 0x30 0x39 c.

Definition is_hex_digit (c : Z) : bool :=
  is_digit c || in_range 0x61 0x66 c || in_range 0x41 0x46 c.

(** [[^\t\n\f <&#;]] *)
Definition is_name_char (c : Z) : bool :=
  negb (bool_decide (c ∈ [0x09; 0x0A; 0x0C; 0x20; 0x3C; 0x26; 0x23; 0x3B])).

Fixpoint take_while (p : Z → bool) (s : str) : str :=
  match s with
  | c :: rest => if p c then c :: take_while p rest else []
  | [] => []
  end.

(** At most [n] characters, for [{1,32}]. *)
Fixpoint take_while_upto (n : nat) (p : Z → bool) (s : str) : str :=
  match n, s with
  | S n', c :: rest => if p c then c :: take_while_upto n' p rest else []
  | _, _ => []
  end.

(** [;?] *)
Definition optional_semicolon (s : str) : str :=
  match s with
  | 0x3B :: _ => [0x3B]
  | _ => []
  end.

(** Group 1 of [_charref] when the pattern matches at an ampersand followed
    by [s]: [#[0-9]+;?], or [#[xX][0-9a-fA-F]+;?], or
    [[^\t\n\f <&#;]{1,32};?]. *)
Definition charref_group (s : str) : option str :=
  match s with
  | 0x23 :: s1 =>
      match take_while is_digit s1 with
      | (_ :: _) as digits =>
          Some (0x23 :: digits ++ optional_semicolon (drop (length digits) s1))
      | [] =>
          match s1 with
          | x :: s2 =>
              if bool_decide (x ∈ [0x78; 0x58]) then
                match take_while is_hex_digit s2 with
                | (_ :: _) as digits =>
                    Some (0x23 :: x :: digits ++
                          optional_semicolon (drop (length digits) s2))
                | [] => None
                end
              else None
          | [] => None
          end
      end
  | _ =>
      match take_while_upto 32 is_name_char s with
      | (_ :: _) as name =>
          Some (name ++ optional_semicolon (drop (length name) s))
      | [] => None
      end
  end.

(** [s.rstrip(ch)] *)
Fixpoint rstrip (ch : Z) (s : str) : str :=
  match s with
  | [] => []
  | c :: rest =>
      match rstrip ch rest with
      | [] => if decide (c = ch) then [] else [c]
      | rest' => c :: rest'
      end
  end.

Definition digit_value (c : Z) : Z :=
  if is_digit c then c - 0x30
  else if in_range 0x61 0x66 c then c - 0x61 + 10
  else c - 0x41 + 10.

(** [int(digits, base)] on digits of the base. *)
Definition int_of (base : Z) (digits : str) : Z :=
  foldl (λ n c, n * base + digit_value c) 0 digits.

(** The loop [for x in range(len(s)-1, 1, -1)] of [_replace_charref], from
    [x] down. *)
Fixpoint longest_name (html5 : gmap str str) (s : str) (x : nat) : str :=
  match x with
  | S (S _ as x') =>
      match html5 !! take x s with
      | Some chars => chars ++ drop x s
      | None => longest_name html5 s x'
      end
  | _ => 0x26 :: s
  end.

(** [_replace_charref] on group 1 of the match; [html5] is the table
    [html.entities.html5]. *)
Definition replace_charref (html5 : gmap str str) (s : str) : str :=
  match s with
  | 0x23 :: s1 =>
      let num :=
        match s1 with
        | x :: s2 =>
            if bool_decide (x ∈ [0x78; 0x58]) then int_of 16 (rstrip 0x3B s2)
            else int_of 10 (rstrip 0x3B s1)
        | [] => 0
        end in
      match list_to_map (M := gmap Z str) invalid_charrefs !! num with
      | Some chars => chars
      | None =>
          if in_range 0xD800 0xDFFF num || (0x10FFFF <? num) then [0xFFFD]
          else if bool_decide (num ∈ invalid_codepoints) then []
          else [num]
      end
  | _ =>
      match html5 !! s with
      | Some chars => chars
      | None => longest_name html5 s (length s - 1)
      end
  end.

(** [_charref.sub(_replace_charref, text)] *)
Equations? charref_sub (html5 : gmap str str) (text : str) : str
  by wf (length text) lt :=
charref_sub html5 [] := [];
charref_sub html5 (c :: rest) :=
  match (if decide (c = 0x26) then charref_group rest else None) with
  | Some s =>
      replace_charref html5 s ++ charref_sub html5 (drop (length s) rest)
  | None => c :: charref_sub html5 rest
  end.
Proof. all: rewrite ?length_drop; lia. Qed.

Definition unescape (html5 : gmap str str) (s : str) : str :=
  if bool_decide (0x26 ∈ s) then charref_sub html5 s else s.

(** ** HTML (lines 148-171) *)

(** What stands between two tags: plain characters and references. *)
Inductive text_item :=
| Chars (s : str)
| EntityRef (name : str)
| CharRef (name : str).

(** The text of an item as it stands in the file. *)
Definition text_item_source (t : text_item) : str :=
  match t with
  | Chars s => s
  | EntityRef name => lit "&" ++ name ++ lit ";"
  | CharRef name => lit "&#" ++ name ++ lit ";"
  end.

Definition text_source (items : list text_item) : str :=
  concat (text_item_source <$> items).

(** What [HTMLParser.goahead] finds in the text it is fed, one item for
    each call of a parsing method: a tag with its attributes as they are
    passed to the handler, the character data up to the next tag, the
    content of a [script] or [style] element, a comment, a declaration, a
    processing instruction or a marked section. *)
Inductive html_item :=
| StartTag (tag : str) (attrs : list (str * option str))
| StartEndTag (tag : str) (attrs : list (str * option str))
| EndTag (tag : str)
| Text (items : list text_item)
| CDataContent (data : str)
| Comment (data : str)
| Decl (decl : str)
| Pi (data : str)
| UnknownDecl (data : str).

(** The parser object: [convert_charrefs] of the base class, and
    [emoji_map] and [result] of [MyHTMLParser]. *)
Record MyHTMLParser := Parser {
  convert_charrefs : bool;
  emoji_map : gmap str str;
  result : list str
}.

(** [HTMLParser.__init__(self, *, convert_charrefs=True)] *)
Definition HTMLParser_init (convert_charrefs : option bool) : bool :=
  match convert_charrefs with
  | Some flag => flag
  | None => true
  end.

(** [MyHTMLParser.__init__]: [super().__init__()] passes no argument. *)
Definition MyHTMLParser_init (emoji_map : gmap str str) : MyHTMLParser :=
  Parser (HTMLParser_init None) emoji_map [].

Definition append_result (self : MyHTMLParser) (s : str) : MyHTMLParser :=
  Parser (convert_charrefs self) (emoji_map self) (result self ++ [s]).

(** [str(v)] of an attribute value; an attribute without a value has
    [None]. *)
Definition format_value (v : option str) : str :=
  match v with
  | Some s => s
  | None => lit "None"
  end.

Definition handle_starttag (self : MyHTMLParser) (tag : str)
    (attrs : list (str * option str)) : MyHTMLParser :=
  let attr_str :=
    concat (List.map (λ kv, lit " " ++ fst kv ++ lit "=" ++ [0x22] ++
                            format_value (snd kv) ++ [0x22]) attrs) in
  append_result self (lit "<" ++ tag ++ attr_str ++ lit ">").

Definition handle_endtag (self : MyHTMLParser) (tag : str) : MyHTMLParser :=
  append_result self (lit "</" ++ tag ++ lit ">").

Definition handle_data (self : MyHTMLParser) (data : str) : MyHTMLParser :=
  append_result self (replace_emojis data (emoji_map self)).

Definition handle_entityref (self : MyHTMLParser) (name : str) : MyHTMLParser :=
  append_result self (lit "&" ++ name ++ lit ";").

Definition handle_charref (self : MyHTMLParser) (name : str) : MyHTMLParser :=
  append_result self (lit "&#" ++ name ++ lit ";").

(** The handlers that [MyHTMLParser] does not override are those of
    [HTMLParser]: [handle_startendtag] calls the two tag handlers, the others
    are [pass]. *)
Definition handle_startendtag (self : MyHTMLParser) (tag : str)
    (attrs : list (str * option str)) : MyHTMLParser :=
  handle_endtag (handle_starttag self tag attrs) tag.

Definition handle_comment (self : MyHTMLParser) (data : str) : MyHTMLParser := self.
Definition handle_decl (self : MyHTMLParser) (decl : str) : MyHTMLParser := self.
Definition handle_pi (self : MyHTMLParser) (data : str) : MyHTMLParser := self.
Definition unknown_decl (self : MyHTMLParser) (data : str) : MyHTMLParser := self.

Definition get_html (self : MyHTMLParser) : str := concat (result self).

(** Character data when [convert_charrefs] is false: [goahead] stops at
    every ampersand and calls the handler of the reference. *)
Definition goahead_text_item (self : MyHTMLParser) (t : text_item) : MyHTMLParser :=
  match t with
  | Chars s => handle_data self s
  | EntityRef name => handle_entityref self name
  | CharRef name => handle_charref self name
  end.

(** One round of the loop of [goahead].  When [convert_charrefs] is true
    the text up to the next tag is passed to [handle_data] after
    [unescape], if it is not empty. *)
Definition goahead_item (html5 : gmap str str) (self : MyHTMLParser)
    (item : html_item) : MyHTMLParser :=
  match item with
  | StartTag tag attrs => handle_starttag self tag attrs
  | StartEndTag tag attrs => handle_startendtag self tag attrs
  | EndTag tag => handle_endtag self tag
  | Text items =>
      if convert_charrefs self then
        match text_source items with
        | [] => self
        | rawdata => handle_data self (unescape html5 rawdata)
        end
      else foldl goahead_text_item self items
  | CDataContent data => handle_data self data
  | Comment data => handle_comment self data
  | Decl decl => handle_decl self decl
  | Pi data => handle_pi self data
  | UnknownDecl data => unknown_decl self data
  end.

Definition goahead (html5 : gmap str str) (self : MyHTMLParser)
    (items : list html_item) : MyHTMLParser :=
  foldl (goahead_item html5) self items.

(** The items for which [MyHTMLParser] has no handler of its own and the
    base class does nothing. *)
Definition unhandled (item : html_item) : bool :=
  match item with
  | Comment _ | Decl _ | Pi _ | UnknownDecl _ => true
  | _ => false
  end.

(** ** CSV and XML (lines 116-125 and 135-146) *)

Definition replace_rows (emoji_map : gmap str str) (reader : list (list str))
  : list (list str) :=
  List.map (λ row : list str,
              List.map (λ cell, replace_emojis cell emoji_map) row) reader.

(** An element of [xml.etree.ElementTree]. *)
#[warnings="-register-all"]
Inductive element :=
| Element (tag : str) (attrib : list (str * str)) (text tail : option str)
          (children : list element).

(** [if t: t = replace_emojis(t, emoji_map)] *)
Definition replace_if_any (emoji_map : gmap str str) (t : option str) : option str :=
  match t with
  | Some (c :: s) => Some (replace_emojis (c :: s) emoji_map)
  | _ => t
  end.

Fixpoint recursive_xml (emoji_map : gmap str str) (elem : element) : element :=
  match elem with
  | Element tag attrib text tail children =>
      Element tag attrib (replace_if_any emoji_map text)
              (replace_if_any emoji_map tail)
              (List.map (recursive_xml emoji_map) children)
  end.

(** ** The handlers and the driver (lines 101-206) *)

(** The functions and tables of the Python library that the handlers and
    the driver call. *)
Record library := Library {
  entities_html5 : gmap str str;
  html_items : str → list html_item;
  json_load : str → option json;
  json_dump : json → str;
  csv_reader : str → list (list str);
  csv_writer : list (list str) → str;
  xml_parse : str → option element;
  xml_write : element → str;
  lower : str → str;
  splitext : str → str * str;
  listdir : world → str → list str
}.

Definition SUPPORTED_EXTS : list str :=
  [lit ".json"; lit ".txt"; lit ".md"; lit ".csv"; lit ".xml"; lit ".html";
   lit ".htm"].

Definition startswith (s prefix : str) : bool := bool_decide (prefix `prefix_of` s).

(** [s.endswith(suffixes)] with a tuple of suffixes. *)
Definition endswith (s : str) (suffixes : list str) : bool :=
  existsb (λ suffix, bool_decide (suffix `suffix_of` s)) suffixes.

Definition isfile (w : world) (path : str) : bool :=
  bool_decide (path ∈ dom (files w)).

Section Handlers.
Variable py : library.

Definition process_json_file (src dst : str) (emoji_map : gmap str str)
    (w : world) : option world :=
  text ← load_file w src;
  data ← json_load py text;
  let new_data := recursive_replace emoji_map data in
  Some (save_file w dst (json_dump py new_data)).

Definition process_csv_file (src dst : str) (emoji_map : gmap str str)
    (w : world) : option world :=
  text ← load_file w src;
  let new_rows := replace_rows emoji_map (csv_reader py text) in
  Some (save_file w dst (csv_writer py new_rows)).

Definition process_txt_file (src dst : str) (emoji_map : gmap str str)
    (w : world) : option world :=
  text ← load_file w src;
  let new_text := replace_emojis text emoji_map in
  Some (save_file w dst new_text).

Definition process_md_file (src dst : str) (emoji_map : gmap str str)
    (w : world) : option world :=
  process_txt_file src dst emoji_map w.

Definition process_xml_file (src dst : str) (emoji_map : gmap str str)
    (w : world) : option world :=
  text ← load_file w src;
  root ← xml_parse py text;
  Some (save_file w dst (xml_write py (recursive_xml emoji_map root))).

Definition process_html_file (src dst : str) (emoji_map : gmap str str)
    (w : world) : option world :=
  text ← load_file w src;
  let parser := MyHTMLParser_init emoji_map in
  let parser := goahead (entities_html5 py) parser (html_items py text) in
  Some (save_file w dst (get_html parser)).

(** The body of the loop of [main] (lines 182-206). *)
Definition main_body (src_dir output_dir filename : str) (w : world)
  : option world :=
  let src_path := path_join src_dir filename in
  let dst_path := path_join output_dir filename in
  let w := print w (lit "Processing " ++ filename) in
  text ← load_file w src_path;
  let original_emojis := get_emojis_in_order text in
  match original_emojis with
  | [] => Some (print w (lit "  No emojis found in " ++ filename ++ lit ", skip."))
  | _ =>
      emoji_map ← build_emoji_map original_emojis ANDROID_EMOJI_POOL;
      let ext := lower py (snd (splitext py filename)) in
      if decide (ext = lit ".json") then
        process_json_file src_path dst_path emoji_map w
      else if decide (ext = lit ".txt") then
        process_txt_file src_path dst_path emoji_map w
      else if decide (ext = lit ".md") then
        process_md_file src_path dst_path emoji_map w
      else if decide (ext = lit ".csv") then
        process_csv_file src_path dst_path emoji_map w
      else if decide (ext = lit ".xml") then
        process_xml_file src_path dst_path emoji_map w
      else if bool_decide (ext ∈ [lit ".html"; lit ".htm"]) then
        process_html_file src_path dst_path emoji_map w
      else
        Some (print w (lit "  Unsupported file type: " ++ filename))
  end.

(** [for filename in files]: an exception ends the run. *)
Fixpoint main_loop (src_dir output_dir : str) (files : list str) (w : world)
  : option world :=
  match files with
  | [] => Some w
  | filename :: rest =>
      match main_body src_dir output_dir filename w with
      | Some w' => main_loop src_dir output_dir rest w'
      | None => None
      end
  end.

(** [main] (lines 173-206) on the directory of the script. *)
Definition main (src_dir : str) (w : world) : option world :=
  let output_dir := path_join src_dir (lit "output") in
  let w := makedirs w output_dir in
  let files :=
    List.filter (λ f, isfile w (path_join src_dir f)
                      && endswith (lower py f) SUPPORTED_EXTS
                      && negb (startswith f (lit "output")))
                (listdir py w src_dir) in
  main_loop src_dir output_dir files w.
End Handlers.

(** ** Texts as matches and the text between them *)

(** [interleave [g0; g1; ...; gn] [m1; ...; mn]] is the text
    [g0 m1 g1 ... mn gn]. *)
Fixpoint interleave (gaps matches : list str) : str :=
  match gaps, matches with
  | g :: gaps', m :: matches' => g ++ m ++ interleave gaps' matches'
  | g :: _, [] => g
  | [], _ => []
  end.

(** ** Sample data *)

(** The document [{"a": "<dog> <dog>", "b": ["<apple>"], "n": 1}]. *)
Definition sample_json : json :=
  JDict [ (lit "a", JStr [0x1F436; 0x20; 0x1F436]);
          (lit "b", JList [JStr [0x1F34E]]);
          (lit "n", JNumber (PyInt 1)) ].

(** Three distinct emojis: a grinning face, a heart and a dog face. *)
Definition sample_emojis : list str := [[0x1F600]; [0x2764]; [0x1F436]].

(** A pool of two, as in the scenario of the specification: a fox and a
    strawberry. *)
Definition sample_pool : list str := [[0x1F98A]; [0x1F353]].

(** The entries of [html.entities.html5] for the ampersand. *)
Definition sample_html5 : gmap str str :=
  list_to_map [(lit "amp;", lit "&"); (lit "amp", lit "&")].

(** The items of [<p>G &amp; &#169;</p>], where [G] is a grinning face. *)
Definition sample_html : list html_item :=
  [ StartTag (lit "p") [];
    Text [Chars ([0x1F600] ++ lit " "); EntityRef (lit "amp"); Chars (lit " ");
          CharRef (lit "169")];
    EndTag (lit "p") ].

(** The text of [sample_html] in the file. *)
Definition sample_html_source : str :=
  lit "<p>" ++ [0x1F600] ++ lit " &amp; &#169;</p>".

(** The map that [build_emoji_map] returns for [sample_html_source]: the
    grinning face becomes the first emoji of the pool, a dog face. *)
Definition sample_emoji_map : gmap str str := {[ [0x1F600] := [0x1F436] ]}.

(** A library whose parsers find nothing and reject every document. *)
Definition sample_library : library :=
  Library sample_html5 (λ _, []) (λ _, None) (λ _, []) (λ _, []) (λ _, [])
          (λ _, None) (λ _, []) (λ s, s) (λ s, (s, [])) (λ _ _, []).

(** A directory with one text file without any emoji. *)
Definition sample_world : world :=
  World {[ path_join (lit "dir") (lit "notes.txt") := lit "plain text" ]} ∅ [].

(** ** Notions and sample data for the further properties *)

(** The map that [main] builds for a file from its text (lines 186-191). *)
Definition file_emoji_map (text : str) : option (gmap str str) :=
  let original_emojis := get_emojis_in_order text in
  build_emoji_map original_emojis ANDROID_EMOJI_POOL.

(** An element with the content of its texts erased: tags, attributes,
    children and the places that have a text remain. *)
Definition erase_text (t : option str) : option str :=
  match t with
  | Some _ => Some []
  | None => None
  end.

Fixpoint xml_shape (elem : element) : element :=
  match elem with
  | Element tag attrib text tail children =>
      Element tag attrib (erase_text text) (erase_text tail)
              (List.map xml_shape children)
  end.

Definition text_list (t : option str) : list str :=
  match t with
  | Some s => [s]
  | None => []
  end.

(** The texts of an element: its text, those of its children, its tail. *)
Fixpoint xml_texts (elem : element) : list str :=
  match elem with
  | Element tag attrib text tail children =>
      text_list text ++ flat_map xml_texts children ++ text_list tail
  end.

(** The items whose handler is [handle_data]. *)
Definition holds_data (item : html_item) : bool :=
  match item with
  | Text _ | CDataContent _ => true
  | _ => false
  end.

(** The part of a name from its last dot on, empty without a dot. *)
Fixpoint extension (name : str) : str :=
  match name with
  | [] => []
  | c :: rest =>
      match extension rest with
      | [] => if decide (c = 0x2E) then c :: rest else []
      | ext => ext
      end
  end.

(** A library for names in lower case: the extension is cut at the last
    dot, the directory lists three names, and the parsers find nothing and
    reject every document. *)
Definition sample_posix_library : library :=
  Library sample_html5 (λ _, []) (λ _, None) (λ _, []) (λ _, []) (λ _, [])
          (λ _, None) (λ _, [])
          (λ s, s)
          (λ name, (take (length name - length (extension name)) name,
                    extension name))
          (λ _ _, [lit "notes.txt"; lit "story.md"; lit "output.txt"]).

(** A text with two runs: [I love <dog><cat> and <apple>!]. *)
Definition sample_text : str :=
  lit "I love " ++ [0x1F436; 0x1F431] ++ lit " and " ++ [0x1F34E] ++ lit "!".

(** A directory with a text file without emoji, a Markdown file with two
    runs, a file whose name starts like the output directory and a JSON
    file. *)
Definition sample_directory : world :=
  World (list_to_map
           [ (path_join (lit "dir") (lit "notes.txt"), lit "plain text");
             (path_join (lit "dir") (lit "story.md"), sample_text);
             (path_join (lit "dir") (lit "output.txt"), [0x1F600]);
             (path_join (lit "dir") (lit "data.json"), lit "{" ++ [0x1F600]) ])
        ∅ [].

(** * Properties *)


(** ** Rotation of the deque *)

Lemma rotate_1_cons {A} (x : A) (l : list A) : rotate 1 (x :: l) = l ++ [x].
Proof.
  unfold rotate. destruct l as [|y l]; [reflexivity|].
  replace (1 `mod` length (x :: y :: l))%nat with 1%nat; [reflexivity|].
  symmetry. apply Nat.mod_small. simpl. lia.
Qed.

Lemma rotate_rotate {A} (a b : nat) (l : list A) :
  rotate a (rotate b l) = rotate (a + b) l.
Proof.
  apply list_eq. intros i.
  destruct (decide (i < length l)%nat) as [Hi|Hi].
  - assert (Hlt : (rotate_nat_add a i (length l) < length l)%nat).
    { unfold rotate_nat_add.
      pose proof (Z.mod_pos_bound (Z.of_nat a + Z.of_nat i) (Z.of_nat (length l))).
      lia. }
    rewrite (lookup_rotate_r (rotate b l)) by (rewrite length_rotate; lia).
    rewrite length_rotate.
    rewrite (lookup_rotate_r l b) by done.
    rewrite (lookup_rotate_r l (a + b)) by done.
    f_equal. unfold rotate_nat_add.
    rewrite Z2Nat.id by (apply Z.mod_pos_bound; lia).
    rewrite Z.add_mod_idemp_r by lia. f_equal. f_equal. lia.
  - rewrite !lookup_ge_None_2; rewrite ?length_rotate; try lia. reflexivity.
Qed.

Lemma rotate_Permutation {A} (n : nat) (l : list A) : rotate n l ≡ₚ l.
Proof.
  unfold rotate. rewrite Permutation_app_comm. by rewrite take_drop.
Qed.

(** ** The loop of [get_emojis_in_order] *)

Lemma order_loop_snd (emojis : list str) (seen : gset str) (ordered : list str) :
  snd (order_loop emojis (seen, ordered)) = ordered ++ fresh_firsts seen emojis.
Proof.
  unfold order_loop. revert seen ordered.
  induction emojis as [|em rest IH]; intros seen ordered; simpl.
  - by rewrite app_nil_r.
  - destruct (decide (em ∈ seen)); [apply IH|].
    rewrite IH, <- app_assoc. reflexivity.
Qed.

Lemma distinct_in_order_fresh (emojis : list str) :
  distinct_in_order emojis = fresh_firsts ∅ emojis.
Proof. unfold distinct_in_order. by rewrite order_loop_snd. Qed.

Lemma elem_of_fresh_firsts (emojis : list str) (seen : gset str) (x : str) :
  x ∈ fresh_firsts seen emojis ↔ x ∈ emojis ∧ x ∉ seen.
Proof.
  revert seen. induction emojis as [|em rest IH]; intros seen; simpl.
  - set_solver.
  - destruct (decide (em ∈ seen)) as [Hin|Hin].
    + rewrite IH. set_solver.
    + rewrite !elem_of_cons, IH. split.
      * intros [->|[? ?]]; [tauto|]. split; [tauto|]. set_solver.
      * intros [[->|?] ?]; [tauto|].
        destruct (decide (x = em)) as [->|?]; [tauto|]. right. set_solver.
Qed.

Lemma NoDup_fresh_firsts (emojis : list str) (seen : gset str) :
  NoDup (fresh_firsts seen emojis).
Proof.
  revert seen. induction emojis as [|em rest IH]; intros seen; simpl.
  - constructor.
  - destruct (decide (em ∈ seen)); [apply IH|].
    constructor; [|apply IH].
    rewrite elem_of_fresh_firsts. set_solver.
Qed.

Lemma fresh_firsts_order (emojis : list str) (seen : gset str)
    (i j : nat) (x y : str) :
  fresh_firsts seen emojis !! i = Some x →
  fresh_firsts seen emojis !! j = Some y →
  (i < j)%nat →
  ∃ p : nat, emojis !! p = Some x ∧ y ∉ take (S p) emojis.
Proof.
  revert seen i j. induction emojis as [|em rest IH]; intros seen i j; simpl.
  - intros Hx. by rewrite lookup_nil in Hx.
  - destruct (decide (em ∈ seen)) as [Hin|Hin].
    + intros Hx Hy Hij.
      destruct (IH _ _ _ Hx Hy Hij) as (p & Hp & Hnot).
      exists (S p). split; [done|].
      rewrite not_elem_of_cons. split; [|done].
      intros ->. apply list_elem_of_lookup_2 in Hy.
      apply elem_of_fresh_firsts in Hy. tauto.
    + destruct i as [|i]; destruct j as [|j]; try lia; simpl.
      * intros [= <-] Hy _. exists 0%nat. split; [done|].
        simpl. rewrite take_0. rewrite not_elem_of_cons. split; [|set_solver].
        intros ->. apply list_elem_of_lookup_2 in Hy.
        apply elem_of_fresh_firsts in Hy. set_solver.
      * intros Hx Hy Hij.
        destruct (IH _ _ _ Hx Hy ltac:(lia)) as (p & Hp & Hnot).
        exists (S p). split; [done|].
        rewrite not_elem_of_cons. split; [|done].
        intros ->. apply list_elem_of_lookup_2 in Hy.
        apply elem_of_fresh_firsts in Hy. set_solver.
Qed.

(** ** The loop of [build_emoji_map] *)

(** An emoji that is already a key leaves the state as it is. *)
Lemma build_step_known (emoji_map : gmap str str) (pool : list str) (emoji : str) :
  emoji ∈ dom emoji_map → build_step (emoji_map, pool) emoji = Some (emoji_map, pool).
Proof.
  intros [v Hv]%elem_of_dom. unfold build_step. by rewrite Hv.
Qed.

(** A new emoji takes the front of the deque, which moves to the back. *)
Lemma build_step_new (emoji_map : gmap str str) (pool : list str)
    (emoji new_emoji : str) :
  emoji ∉ dom emoji_map →
  build_step (emoji_map, new_emoji :: pool) emoji =
    Some (<[emoji := new_emoji]> emoji_map, pool ++ [new_emoji]).
Proof.
  intros Hnot%not_elem_of_dom. unfold build_step. by rewrite Hnot.
Qed.

Lemma build_step_empty_pool (emoji_map : gmap str str) (emoji : str) :
  emoji ∉ dom emoji_map → build_step (emoji_map, []) emoji = None.
Proof.
  intros Hnot%not_elem_of_dom. unfold build_step. by rewrite Hnot.
Qed.

(** Occurrences of an emoji after its first are skipped by the loop. *)
Lemma build_loop_fresh_firsts (emojis : list str) (emoji_map : gmap str str)
    (pool : list str) :
  build_loop emojis (emoji_map, pool) =
  build_loop (fresh_firsts (dom emoji_map) emojis) (emoji_map, pool).
Proof.
  revert emoji_map pool.
  induction emojis as [|em rest IH]; intros emoji_map pool; [reflexivity|].
  cbn [fresh_firsts build_loop].
  destruct (decide (em ∈ dom emoji_map)) as [Hin|Hin].
  - rewrite build_step_known by done. apply IH.
  - cbn [build_loop]. destruct pool as [|new_emoji pool].
    + by rewrite build_step_empty_pool.
    + rewrite build_step_new by done. rewrite IH.
      by rewrite dom_insert_L.
Qed.

Lemma succ_mod_lookup {A} (x : A) (q : list A) (i : nat) :
  (q ++ [x]) !! (i `mod` S (length q))%nat = (x :: q) !! (S i `mod` S (length q))%nat.
Proof.
  pose proof (Nat.mod_upper_bound i (S (length q)) ltac:(lia)) as Hlt.
  destruct (decide (i `mod` S (length q) = length q)%nat) as [Heq|Hne].
  - replace (S i `mod` S (length q))%nat with 0%nat.
    + rewrite Heq. rewrite lookup_app_r by lia.
      by rewrite Nat.sub_diag.
    + symmetry. rewrite <- Nat.add_1_r.
      rewrite <- Nat.Div0.add_mod_idemp_l, Heq.
      rewrite Nat.add_1_r. apply Nat.Div0.mod_same.
  - replace (S i `mod` S (length q))%nat with (S (i `mod` S (length q)))%nat.
    + remember (i `mod` S (length q))%nat as r. simpl.
      apply lookup_app_l. lia.
    + symmetry. rewrite <- Nat.add_1_r.
      rewrite <- Nat.Div0.add_mod_idemp_l.
      rewrite Nat.add_1_r. apply Nat.mod_small. lia.
Qed.

(** The loop on distinct emojis none of which is a key yet: it does not
    raise on a non-empty deque, the emoji at position [i] receives the
    deque element at position [i mod N], the other keys keep their values
    and the deque ends rotated by the number of emojis. *)
Lemma build_loop_distinct (emojis : list str) (emoji_map : gmap str str)
    (pool : list str) :
  NoDup emojis →
  (∀ e, e ∈ emojis → e ∉ dom emoji_map) →
  pool ≠ [] →
  ∃ emoji_map' : gmap str str,
    build_loop emojis (emoji_map, pool) =
      Some (emoji_map', rotate (length emojis) pool) ∧
    (∀ i e, emojis !! i = Some e →
            emoji_map' !! e = pool !! (i `mod` length pool)%nat) ∧
    (∀ e, e ∉ emojis → emoji_map' !! e = emoji_map !! e).
Proof.
  revert emoji_map pool.
  induction emojis as [|em rest IH]; intros emoji_map pool Hnd Hfresh Hpool.
  - exists emoji_map. simpl. split; [|split].
    + f_equal. f_equal. unfold rotate. simpl.
      rewrite Nat.Div0.mod_0_l. simpl. by rewrite app_nil_r.
    + intros i e Hi. by rewrite lookup_nil in Hi.
    + done.
  - apply NoDup_cons in Hnd as [Hem Hnd].
    destruct pool as [|new_emoji pool]; [done|].
    cbn [build_loop]. rewrite build_step_new by (apply Hfresh; left).
    destruct (IH (<[em := new_emoji]> emoji_map) (pool ++ [new_emoji]))
      as (m' & Hrun & Hassign & Hframe); [done| |by destruct pool|].
    { intros e He. rewrite dom_insert_L.
      specialize (Hfresh e ltac:(by right)).
      assert (e ≠ em) by (intros ->; done). set_solver. }
    exists m'. split; [|split].
    + rewrite Hrun. f_equal. f_equal.
      rewrite <- rotate_1_cons, rotate_rotate. f_equal. simpl. lia.
    + intros i e Hi. destruct i as [|i]; simpl in Hi.
      * injection Hi as <-. rewrite Hframe by done.
        rewrite lookup_insert_eq. cbn [length].
        by rewrite Nat.Div0.mod_0_l.
      * rewrite (Hassign i e Hi). rewrite length_app. cbn [length].
        rewrite Nat.add_1_r. apply succ_mod_lookup.
    + intros e He. apply not_elem_of_cons in He as [Hne He].
      rewrite Hframe by done. by rewrite lookup_insert_ne.
Qed.

(** Decidable facts about concrete data are settled by evaluation. *)
Ltac by_evaluation := apply (bool_decide_unpack _); vm_compute; exact I.

Lemma ANDROID_EMOJI_POOL_length : length ANDROID_EMOJI_POOL = 100%nat.
Proof. reflexivity. Qed.

Lemma ANDROID_EMOJI_POOL_NoDup : NoDup ANDROID_EMOJI_POOL.
Proof. by_evaluation. Qed.

(** With a duplicate-free pool at least as long as the list of distinct
    emojis no replacement is handed out twice. *)
Lemma build_emoji_map_injective_on (emojis pool : list str) :
  NoDup emojis → NoDup pool → (length emojis ≤ length pool)%nat →
  ∃ emoji_map : gmap str str,
    build_emoji_map emojis pool = Some emoji_map ∧
    dom emoji_map = list_to_set emojis ∧
    ∀ k1 k2 v, emoji_map !! k1 = Some v → emoji_map !! k2 = Some v → k1 = k2.
Proof.
  intros Hnd Hpool Hlen. unfold build_emoji_map.
  destruct emojis as [|em rest].
  { exists ∅. simpl. split; [done|]. split; [set_solver|].
    intros k1 k2 v Hk. by rewrite lookup_empty in Hk. }
  destruct (build_loop_distinct (em :: rest) ∅ pool)
    as (m & Hrun & Hassign & Hframe); [done|set_solver| |].
  { intros ->. simpl in Hlen. lia. }
  assert (Hkey : ∀ k v, m !! k = Some v →
            ∃ i, (em :: rest) !! i = Some k ∧ pool !! i = Some v).
  { intros k v Hk. destruct (decide (k ∈ em :: rest)) as [Hin|Hout].
    - apply list_elem_of_lookup in Hin as [i Hi]. exists i. split; [done|].
      rewrite <- Hk, (Hassign i k Hi). f_equal. symmetry. apply Nat.mod_small.
      apply lookup_lt_Some in Hi. lia.
    - rewrite (Hframe k Hout), lookup_empty in Hk. done. }
  exists m. rewrite Hrun. split; [done|]. split.
  - apply set_eq. intros k. rewrite elem_of_dom, elem_of_list_to_set. split.
    + intros [v Hv]. destruct (Hkey k v Hv) as (i & Hi & _).
      by eapply list_elem_of_lookup_2.
    + intros [i Hi]%list_elem_of_lookup. rewrite (Hassign i k Hi).
      apply lookup_lt_is_Some. apply Nat.mod_upper_bound.
      intros Hz. apply lookup_lt_Some in Hi. simpl in *. lia.
  - intros k1 k2 v Hk1 Hk2.
    destruct (Hkey k1 v Hk1) as (i & Hi & Hpi).
    destruct (Hkey k2 v Hk2) as (j & Hj & Hpj).
    assert (i = j) by (eapply NoDup_lookup; eauto). subst j. congruence.
Qed.

(** C1: for every sequence of distinct emojis of length at most 100,
    [build_emoji_map] with the fixed [ANDROID_EMOJI_POOL] returns a map in
    which no two distinct keys have the same replacement; the pool has 100
    elements and no duplicate. *)
Theorem build_emoji_map_injective (emojis : list str) :
  NoDup emojis → (length emojis ≤ 100)%nat →
  length ANDROID_EMOJI_POOL = 100%nat ∧
  NoDup ANDROID_EMOJI_POOL ∧
  ∃ emoji_map : gmap str str,
    build_emoji_map emojis ANDROID_EMOJI_POOL = Some emoji_map ∧
    ∀ k1 k2 v, emoji_map !! k1 = Some v → emoji_map !! k2 = Some v → k1 = k2.
Proof.
  intros Hnd Hlen.
  split; [apply ANDROID_EMOJI_POOL_length|].
  split; [apply ANDROID_EMOJI_POOL_NoDup|].
  destruct (build_emoji_map_injective_on emojis ANDROID_EMOJI_POOL)
    as (m & Hm & _ & Hinj);
    [done|apply ANDROID_EMOJI_POOL_NoDup|by rewrite ANDROID_EMOJI_POOL_length|].
  exists m. split; done.
Qed.

Lemma build_emoji_map_injective_witness :
  NoDup sample_emojis ∧
  (length sample_emojis ≤ 100)%nat ∧
  length ANDROID_EMOJI_POOL = 100%nat ∧
  NoDup ANDROID_EMOJI_POOL ∧
  ∃ emoji_map : gmap str str,
    build_emoji_map sample_emojis ANDROID_EMOJI_POOL = Some emoji_map ∧
    ∀ k1 k2 v, emoji_map !! k1 = Some v → emoji_map !! k2 = Some v → k1 = k2.
Proof.
  assert (Hnd : NoDup sample_emojis) by by_evaluation.
  assert (Hlen : (length sample_emojis ≤ 100)%nat) by (simpl; lia).
  split; [exact Hnd|]. split; [exact Hlen|].
  exact (build_emoji_map_injective sample_emojis Hnd Hlen).
Defined.

(** On an empty pool the first new emoji raises [IndexError]; without any
    emoji the map is empty. *)
Lemma build_emoji_map_empty_pool (emojis : list str) :
  build_emoji_map emojis [] =
  match emojis with
  | [] => Some ∅
  | _ :: _ => None
  end.
Proof. by destruct emojis. Qed.

(** C2: for distinct emojis and a pool of [N] elements, the [i]-th emoji
    (counted from 1) receives the pool element at index [(i-1) mod N]; when
    there are more than [N] emojis the [(N+1)]-th, a different key, receives
    the replacement of the first; and after every step of the loop the deque
    is the pool rotated by the number of steps, a permutation of the pool of
    the same length. *)
Theorem build_emoji_map_round_robin (emojis pool : list str) :
  NoDup emojis → pool ≠ [] →
  ∃ emoji_map : gmap str str,
    build_emoji_map emojis pool = Some emoji_map ∧
    (∀ (i : nat) (e : str), (1 ≤ i)%nat → emojis !! (i - 1)%nat = Some e →
       emoji_map !! e = pool !! ((i - 1) `mod` length pool)%nat) ∧
    (∀ first later : str,
       emojis !! 0%nat = Some first → emojis !! length pool = Some later →
       later ≠ first ∧
       emoji_map !! later = emoji_map !! first ∧
       emoji_map !! first = pool !! 0%nat) ∧
    (∀ k : nat, (k ≤ length emojis)%nat →
       ∃ (map_k : gmap str str) (pool_k : list str),
         build_loop (take k emojis) (∅, pool) = Some (map_k, pool_k) ∧
         pool_k = rotate k pool ∧
         pool_k ≡ₚ pool ∧
         length pool_k = length pool).
Proof.
  intros Hnd Hpool.
  destruct (build_loop_distinct emojis ∅ pool)
    as (m & Hrun & Hassign & Hframe); [done|set_solver|done|].
  assert (Hlen : (0 < length pool)%nat) by (destruct pool; [done|simpl; lia]).
  exists m. unfold build_emoji_map. rewrite Hrun. split; [done|].
  split; [|split].
  - intros i e _ Hi. by apply Hassign.
  - intros first later Hfirst Hlater.
    pose proof (Hassign _ _ Hfirst) as H0.
    pose proof (Hassign _ _ Hlater) as HN.
    rewrite Nat.Div0.mod_0_l in H0. rewrite Nat.Div0.mod_same in HN.
    split; [|split; congruence].
    intros ->.
    assert (length pool = 0)%nat by (eapply NoDup_lookup; eauto). lia.
  - intros k Hk.
    destruct (build_loop_distinct (take k emojis) ∅ pool)
      as (mk & Hrunk & _ & _); [|set_solver|done|].
    { rewrite <- (take_drop k emojis) in Hnd. by apply NoDup_app in Hnd as [? _]. }
    rewrite length_take, Nat.min_l in Hrunk by done.
    exists mk, (rotate k pool). split; [done|]. split; [done|].
    split; [apply rotate_Permutation|apply length_rotate].
Qed.

Lemma build_emoji_map_round_robin_witness :
  NoDup sample_emojis ∧ sample_pool ≠ [] ∧
  ∃ emoji_map : gmap str str,
    build_emoji_map sample_emojis sample_pool = Some emoji_map ∧
    (∀ (i : nat) (e : str), (1 ≤ i)%nat → sample_emojis !! (i - 1)%nat = Some e →
       emoji_map !! e = sample_pool !! ((i - 1) `mod` length sample_pool)%nat) ∧
    (∀ first later : str,
       sample_emojis !! 0%nat = Some first →
       sample_emojis !! length sample_pool = Some later →
       later ≠ first ∧
       emoji_map !! later = emoji_map !! first ∧
       emoji_map !! first = sample_pool !! 0%nat) ∧
    (∀ k : nat, (k ≤ length sample_emojis)%nat →
       ∃ (map_k : gmap str str) (pool_k : list str),
         build_loop (take k sample_emojis) (∅, sample_pool) = Some (map_k, pool_k) ∧
         pool_k = rotate k sample_pool ∧
         pool_k ≡ₚ sample_pool ∧
         length pool_k = length sample_pool).
Proof.
  assert (Hnd : NoDup sample_emojis) by by_evaluation.
  assert (Hpool : sample_pool ≠ []) by discriminate.
  split; [exact Hnd|]. split; [exact Hpool|].
  exact (build_emoji_map_round_robin sample_emojis sample_pool Hnd Hpool).
Defined.

(** C9: on any list of emojis, with any pool, [build_emoji_map] returns
    what it returns on the list with every occurrence after the first
    removed, as [get_emojis_in_order] computes it; the whole final state of
    the loop, deque included, is the same, so the skipped occurrences did not
    advance the pool. *)
Theorem build_emoji_map_dedup_irrelevant (emojis pool : list str) :
  build_emoji_map emojis pool = build_emoji_map (distinct_in_order emojis) pool ∧
  build_loop emojis (∅, pool) = build_loop (distinct_in_order emojis) (∅, pool) ∧
  (∀ text : str,
     get_emojis_in_order text = distinct_in_order (extract_emojis text)).
Proof.
  assert (Hloop : build_loop emojis (∅, pool) =
                  build_loop (distinct_in_order emojis) (∅, pool)).
  { rewrite distinct_in_order_fresh.
    rewrite (build_loop_fresh_firsts emojis ∅ pool). by rewrite dom_empty_L. }
  split; [|split].
  - unfold build_emoji_map. by rewrite Hloop.
  - exact Hloop.
  - reflexivity.
Qed.

(** ** The scanner and the substitution step *)

(** The scenario of the specification: [I love <dog> and <apple>!] with
    the pool of a fox and a strawberry. *)
Example scenario_pool_of_two :
  let text := lit "I love " ++ [0x1F436] ++ lit " and " ++ [0x1F34E] ++ lit "!" in
  let emoji_map : gmap str str :=
    {[ [0x1F436] := [0x1F98A]; [0x1F34E] := [0x1F353] ]} in
  get_emojis_in_order text = [[0x1F436]; [0x1F34E]] ∧
  build_emoji_map (get_emojis_in_order text) sample_pool = Some emoji_map ∧
  replace_emojis text emoji_map =
    lit "I love " ++ [0x1F98A] ++ lit " and " ++ [0x1F353] ++ lit "!".
Proof. vm_compute. repeat split. Qed.

Lemma class_run_after_run (text : str) : class_run text ++ after_run text = text.
Proof.
  induction text as [|c rest IH]; [reflexivity|]. simpl.
  destruct (emoji_class c); simpl; [by rewrite IH|reflexivity].
Qed.

Lemma class_run_all (run rest : str) :
  Forall (λ c, emoji_class c = true) run →
  match rest with c :: _ => emoji_class c = false | [] => True end →
  class_run (run ++ rest) = run ∧ after_run (run ++ rest) = rest.
Proof.
  intros Hrun Hrest. induction Hrun as [|c run Hc _ [IH1 IH2]]; simpl.
  - destruct rest as [|c rest]; [done|]. simpl. by rewrite Hrest.
  - rewrite Hc. by rewrite IH1, IH2.
Qed.

(** The matches are separated by text without any character of the class,
    and the substitution rewrites the matches and nothing else. *)
Lemma regex_sub_findall (repl : str → str) (text : str) :
  ∃ gaps : list str,
    length gaps = S (length (regex_findall text)) ∧
    Forall (Forall (λ c, emoji_class c = false)) gaps ∧
    text = interleave gaps (regex_findall text) ∧
    regex_sub repl text = interleave gaps (repl <$> regex_findall text).
Proof.
  funelim (regex_findall text); simp regex_sub.
  - exists [[]]. repeat split. by repeat constructor.
  - destruct (emoji_class c) eqn:Hc.
    + destruct (H repl) as (gaps & Hlen & Hgaps & Htext & Hsub).
      exists ([] :: gaps). cbn [length fmap list_fmap interleave app].
      split; [by rewrite Hlen|]. split; [by constructor|]. split.
      * rewrite <- Htext. by rewrite class_run_after_run.
      * by rewrite Hsub.
    + destruct (H0 repl) as (gaps & Hlen & Hgaps & Htext & Hsub).
      destruct gaps as [|g gaps]; [done|].
      exists ((c :: g) :: gaps). split; [done|]. split.
      * apply Forall_cons in Hgaps as [Hg Hgaps].
        constructor; [by constructor|done].
      * rewrite Htext at 1. rewrite Hsub.
        destruct (regex_findall rest); simpl; done.
Qed.

Lemma regex_skip_prefix (repl : str → str) (before text : str) :
  Forall (λ c, emoji_class c = false) before →
  regex_findall (before ++ text) = regex_findall text ∧
  regex_sub repl (before ++ text) = before ++ regex_sub repl text.
Proof.
  induction 1 as [|c before Hc _ [IH1 IH2]]; [done|].
  simpl. simp regex_findall regex_sub. rewrite Hc. by rewrite IH1, IH2.
Qed.

Lemma regex_no_match (repl : str → str) (text : str) :
  Forall (λ c, emoji_class c = false) text →
  regex_findall text = [] ∧ regex_sub repl text = text.
Proof.
  intros Htext.
  destruct (regex_skip_prefix repl text [] Htext) as [H1 H2].
  rewrite app_nil_r in H1, H2. rewrite H1, H2.
  simp regex_findall regex_sub. by rewrite app_nil_r.
Qed.

Lemma regex_one_run (repl : str → str) (c : Z) (run after : str) :
  Forall (λ c, emoji_class c = true) (c :: run) →
  Forall (λ c, emoji_class c = false) after →
  regex_findall ((c :: run) ++ after) = [c :: run] ∧
  regex_sub repl ((c :: run) ++ after) = repl (c :: run) ++ after.
Proof.
  intros [Hc Hrun]%Forall_cons Hafter.
  destruct (class_run_all run after Hrun) as [Hr Ha].
  { destruct Hafter; done. }
  destruct (regex_no_match repl after Hafter) as [Hf Hs].
  simpl. simp regex_findall regex_sub. rewrite Hc, Hr, Ha. by rewrite Hf, Hs.
Qed.

(** The substring is looked up whole. *)
Lemma replace_fn_cases (emoji_map : gmap str str) (emoji : str) :
  match emoji_map !! emoji with
  | Some new_emoji => replace_fn emoji_map emoji = new_emoji
  | None => replace_fn emoji_map emoji = emoji
  end.
Proof. unfold replace_fn. by destruct (emoji_map !! emoji). Qed.

(** C4: the text is its matches [extract_emojis text] with the text between
    them; [replace_emojis] returns the same text between the matches, with
    each match that is a key of the map replaced by the map's value for it
    and each match that is not a key left as it is; a text without a match
    is returned unchanged.  The function is total: no input raises. *)
Theorem replace_emojis_spec (text : str) (emoji_map : gmap str str) :
  ∃ gaps replacements : list str,
    length gaps = S (length (extract_emojis text)) ∧
    Forall (Forall (λ c, emoji_class c = false)) gaps ∧
    text = interleave gaps (extract_emojis text) ∧
    replace_emojis text emoji_map = interleave gaps replacements ∧
    Forall2 (λ emoji new : str,
               match emoji_map !! emoji with
               | Some new_emoji => new = new_emoji
               | None => new = emoji
               end) (extract_emojis text) replacements ∧
    (extract_emojis text = [] → replace_emojis text emoji_map = text).
Proof.
  unfold replace_emojis, extract_emojis.
  destruct (regex_sub_findall (replace_fn emoji_map) text)
    as (gaps & Hlen & Hgaps & Htext & Hsub).
  exists gaps, (replace_fn emoji_map <$> regex_findall text).
  repeat split; try done.
  - apply Forall2_fmap_r, Forall_Forall2_diag, Forall_forall.
    intros emoji _. pose proof (replace_fn_cases emoji_map emoji) as Hcase.
    by destruct (emoji_map !! emoji).
  - intros Hnone. rewrite Hsub. rewrite Hnone in Htext |- *. by symmetry.
Qed.

(** ** Distinct emojis in order of first appearance *)

Lemma first_occurrence (x : str) (l : list str) :
  x ∈ l → ∃ p : nat, l !! p = Some x ∧ x ∉ take p l.
Proof.
  induction l as [|y l IH]; intros Hin.
  - by apply elem_of_nil in Hin.
  - destruct (decide (x = y)) as [->|Hne].
    + exists 0%nat. split; [done|]. rewrite take_0. apply not_elem_of_nil.
    + apply elem_of_cons in Hin as [->|Hin]; [done|].
      destruct (IH Hin) as (p & Hp & Hnot). exists (S p). split; [done|].
      simpl. by apply not_elem_of_cons.
Qed.

Lemma lookup_not_in_take (x : str) (l : list str) (p n : nat) :
  l !! p = Some x → x ∉ take n l → (n ≤ p)%nat.
Proof.
  intros Hp Hnot. destruct (decide (n ≤ p)%nat) as [|Hlt]; [done|].
  exfalso. apply Hnot. apply list_elem_of_lookup. exists p.
  rewrite lookup_take_lt by lia. done.
Qed.

(** C5: the list returned by [get_emojis_in_order] has no duplicate, its
    elements are the matches of the scanner in the text, and of two of its
    elements the earlier one has its first occurrence among the matches
    before the first occurrence of the later one. *)
Theorem get_emojis_in_order_spec (text : str) :
  NoDup (get_emojis_in_order text) ∧
  (∀ x : str, (x ∈ get_emojis_in_order text) ↔ (x ∈ extract_emojis text)) ∧
  (∀ (i j : nat) (x y : str),
     get_emojis_in_order text !! i = Some x →
     get_emojis_in_order text !! j = Some y →
     (i < j)%nat →
     ∃ p q : nat,
       (p < q)%nat ∧
       extract_emojis text !! p = Some x ∧ (x ∉ take p (extract_emojis text)) ∧
       extract_emojis text !! q = Some y ∧ y ∉ take q (extract_emojis text)).
Proof.
  unfold get_emojis_in_order, extract_emojis.
  rewrite order_loop_snd. cbn [app].
  split; [apply NoDup_fresh_firsts|]. split.
  - intros x. rewrite elem_of_fresh_firsts. set_solver.
  - intros i j x y Hx Hy Hij.
    destruct (fresh_firsts_order _ _ _ _ _ _ Hx Hy Hij) as (p0 & Hp0 & Hnot).
    destruct (first_occurrence x (regex_findall text)) as (p & Hp & Hpfirst).
    { by eapply list_elem_of_lookup_2. }
    destruct (first_occurrence y (regex_findall text)) as (q & Hq & Hqfirst).
    { apply list_elem_of_lookup_2 in Hy.
      apply elem_of_fresh_firsts in Hy. tauto. }
    exists p, q. repeat split; try done.
    pose proof (lookup_not_in_take _ _ _ _ Hp0 Hpfirst).
    pose proof (lookup_not_in_take _ _ _ _ Hq Hnot). lia.
Qed.

(** C7: in a text where two characters of the scanner's ranges stand side
    by side, with no character of the ranges around them, [extract_emojis]
    returns one match, the two characters together; that run is the one key
    of the map built for the text, and [replace_emojis] looks the run up
    whole, whatever the map holds for each of its characters. *)
Theorem adjacent_emojis_one_run (c1 c2 : Z) (before after : str) :
  emoji_class c1 = true → emoji_class c2 = true →
  Forall (λ c, emoji_class c = false) before →
  Forall (λ c, emoji_class c = false) after →
  extract_emojis [c1; c2] = [[c1; c2]] ∧
  extract_emojis (before ++ [c1; c2] ++ after) = [[c1; c2]] ∧
  get_emojis_in_order (before ++ [c1; c2] ++ after) = [[c1; c2]] ∧
  (∀ (new_emoji : str) (pool : list str),
     build_emoji_map (get_emojis_in_order (before ++ [c1; c2] ++ after))
                     (new_emoji :: pool)
       = Some {[ [c1; c2] := new_emoji ]}) ∧
  (∀ emoji_map : gmap str str,
     replace_emojis (before ++ [c1; c2] ++ after) emoji_map =
       before ++
       match emoji_map !! [c1; c2] with
       | Some new_emoji => new_emoji
       | None => [c1; c2]
       end ++ after).
Proof.
  intros Hc1 Hc2 Hbefore Hafter.
  assert (Hrun : Forall (λ c, emoji_class c = true) [c1; c2])
    by (by repeat constructor).
  assert (Hall : ∀ repl,
            regex_findall (before ++ [c1; c2] ++ after) = [[c1; c2]] ∧
            regex_sub repl (before ++ [c1; c2] ++ after) =
              before ++ repl [c1; c2] ++ after).
  { intros repl.
    destruct (regex_skip_prefix repl before ([c1; c2] ++ after) Hbefore)
      as [Hf Hs].
    destruct (regex_one_run repl c1 [c2] after Hrun Hafter) as [Hf1 Hs1].
    rewrite Hf, Hs. by rewrite Hf1, Hs1. }
  assert (Hfind := proj1 (Hall id)).
  assert (Horder : get_emojis_in_order (before ++ [c1; c2] ++ after) = [[c1; c2]]).
  { unfold get_emojis_in_order. rewrite Hfind. reflexivity. }
  split; [|split; [|split; [|split]]].
  - destruct (regex_one_run id c1 [c2] [] Hrun) as [Hf _]; [constructor|].
    unfold extract_emojis. by rewrite app_nil_r in Hf.
  - exact Hfind.
  - exact Horder.
  - intros new_emoji pool. rewrite Horder. unfold build_emoji_map. simpl.
    rewrite lookup_empty. simpl. by rewrite insert_empty.
  - intros emoji_map. unfold replace_emojis.
    by rewrite (proj2 (Hall (replace_fn emoji_map))).
Qed.

Lemma adjacent_emojis_one_run_witness :
  emoji_class 0x1F436 = true ∧ emoji_class 0x1F34E = true ∧
  Forall (λ c, emoji_class c = false) (lit "I love ") ∧
  Forall (λ c, emoji_class c = false) (lit "!") ∧
  extract_emojis [0x1F436; 0x1F34E] = [[0x1F436; 0x1F34E]] ∧
  extract_emojis (lit "I love " ++ [0x1F436; 0x1F34E] ++ lit "!")
    = [[0x1F436; 0x1F34E]] ∧
  get_emojis_in_order (lit "I love " ++ [0x1F436; 0x1F34E] ++ lit "!")
    = [[0x1F436; 0x1F34E]] ∧
  (∀ (new_emoji : str) (pool : list str),
     build_emoji_map
       (get_emojis_in_order (lit "I love " ++ [0x1F436; 0x1F34E] ++ lit "!"))
       (new_emoji :: pool)
       = Some {[ [0x1F436; 0x1F34E] := new_emoji ]}) ∧
  (∀ emoji_map : gmap str str,
     replace_emojis (lit "I love " ++ [0x1F436; 0x1F34E] ++ lit "!") emoji_map =
       lit "I love " ++
       match emoji_map !! [0x1F436; 0x1F34E] with
       | Some new_emoji => new_emoji
       | None => [0x1F436; 0x1F34E]
       end ++ lit "!").
Proof.
  assert (H1 : emoji_class 0x1F436 = true) by reflexivity.
  assert (H2 : emoji_class 0x1F34E = true) by reflexivity.
  assert (H3 : Forall (λ c, emoji_class c = false) (lit "I love "))
    by (by repeat constructor).
  assert (H4 : Forall (λ c, emoji_class c = false) (lit "!"))
    by (by repeat constructor).
  split; [exact H1|]. split; [exact H2|]. split; [exact H3|]. split; [exact H4|].
  exact (adjacent_emojis_one_run 0x1F436 0x1F34E (lit "I love ") (lit "!")
           H1 H2 H3 H4).
Defined.

(** ** JSON documents *)

Section json_induction.
Variable P : json → Prop.
Hypothesis HNone : P JNone.
Hypothesis HBool : ∀ b, P (JBool b).
Hypothesis HNumber : ∀ n, P (JNumber n).
Hypothesis HStr : ∀ s, P (JStr s).
Hypothesis HList : ∀ items, Forall P items → P (JList items).
Hypothesis HDict : ∀ items, Forall (λ kv, P (snd kv)) items → P (JDict items).

Fixpoint json_induction (obj : json) : P obj :=
  match obj with
  | JNone => HNone
  | JBool b => HBool b
  | JNumber n => HNumber n
  | JStr s => HStr s
  | JList items =>
      HList items
        ((fix all (l : list json) : Forall P l :=
            match l with
            | [] => List.Forall_nil P
            | x :: l' => List.Forall_cons P x l' (json_induction x) (all l')
            end) items)
  | JDict items =>
      HDict items
        ((fix all (l : list (str * json)) : Forall (λ kv, P (snd kv)) l :=
            match l with
            | [] => List.Forall_nil _
            | kv :: l' =>
                List.Forall_cons (λ kv, P (snd kv)) kv l'
                                 (json_induction (snd kv)) (all l')
            end) items)
  end.
End json_induction.

Lemma dict_set_new {A} (d : list (str * A)) (k : str) (v : A) :
  k ∉ List.map fst d → dict_set d k v = d ++ [(k, v)].
Proof.
  induction d as [|[k' v'] d IH]; simpl; [done|].
  intros [Hne Hnot]%not_elem_of_cons.
  destruct (decide (k' = k)) as [->|_]; [done|]. by rewrite IH.
Qed.

(** A comprehension over items with distinct keys keeps the items. *)
Lemma dict_of_items_distinct {A} (items : list (str * A)) :
  NoDup (List.map fst items) → dict_of_items items = items.
Proof.
  unfold dict_of_items.
  enough (Hgen : ∀ d, NoDup (List.map fst (d ++ items)) →
            foldl (λ d kv, dict_set d kv.1 kv.2) d items = d ++ items)
    by (intros Hnd; by apply (Hgen [])).
  induction items as [|[k v] items IH]; intros d Hnd; simpl.
  - by rewrite app_nil_r.
  - rewrite dict_set_new.
    + rewrite IH; rewrite <- app_assoc; done.
    + rewrite List.map_app in Hnd. apply NoDup_app in Hnd as (_ & Hdis & _).
      intros Hin. apply (Hdis k Hin). simpl. left.
Qed.

Lemma process_json_file_output (py : library) (src dst : str)
    (emoji_map : gmap str str) (w : world) (text : str) (data : json) :
  load_file w src = Some text → json_load py text = Some data →
  process_json_file py src dst emoji_map w =
    Some (save_file w dst (json_dump py (recursive_replace emoji_map data))).
Proof.
  intros Hload Hdata. unfold process_json_file.
  rewrite Hload. cbn [mbind option_bind]. by rewrite Hdata.
Qed.

(** C6: on a document as [json.load] returns it, [recursive_replace]
    returns a document of the same shape, with the same keys in the same
    order, the same nesting, the same array lengths and the same numbers,
    booleans and nulls; its string leaves are those of the input after
    [replace_emojis], one for one; the keys of its dicts are distinct as
    well. *)
Theorem recursive_replace_shape (emoji_map : gmap str str) (data : json) :
  distinct_keys data = true →
  shape (recursive_replace emoji_map data) = shape data ∧
  string_leaves (recursive_replace emoji_map data) =
    List.map (λ s, replace_emojis s emoji_map) (string_leaves data) ∧
  distinct_keys (recursive_replace emoji_map data) = true.
Proof.
  induction data as [| b | n | s | items IH | items IH] using json_induction;
    intros Hkeys; try done.
  - cbn [recursive_replace shape string_leaves distinct_keys] in *.
    enough (Hall : List.map shape (List.map (recursive_replace emoji_map) items)
                     = List.map shape items ∧
                   flat_map string_leaves
                     (List.map (recursive_replace emoji_map) items)
                     = List.map (λ s, replace_emojis s emoji_map)
                         (flat_map string_leaves items) ∧
                   forallb distinct_keys
                     (List.map (recursive_replace emoji_map) items) = true).
    { destruct Hall as (-> & -> & ->). done. }
    induction IH as [|x items Hx _ IHitems]; [done|].
    simpl in Hkeys. apply andb_prop in Hkeys as [Hkx Hkitems].
    destruct (Hx Hkx) as (Hs & Hl & Hd).
    destruct (IHitems Hkitems) as (Hss & Hll & Hdd).
    simpl. rewrite Hs, Hl, Hd, Hss, Hll, Hdd, List.map_app. done.
  - cbn [recursive_replace shape string_leaves distinct_keys] in *.
    apply andb_prop in Hkeys as [Hnd Hkeys].
    apply bool_decide_eq_true in Hnd.
    rewrite dict_of_items_distinct.
    2:{ rewrite List.map_map. simpl. exact Hnd. }
    rewrite !List.map_map. cbn [fst snd].
    rewrite (proj2 (bool_decide_eq_true _) Hnd). cbn [andb].
    enough (Hall : List.map (λ kv, (fst kv, shape (recursive_replace emoji_map (snd kv)))) items
                     = List.map (λ kv, (fst kv, shape (snd kv))) items ∧
                   flat_map (λ kv, string_leaves (snd kv))
                     (List.map (λ kv, (fst kv, recursive_replace emoji_map (snd kv))) items)
                     = List.map (λ s, replace_emojis s emoji_map)
                         (flat_map (λ kv, string_leaves (snd kv)) items) ∧
                   forallb (λ kv, distinct_keys (snd kv))
                     (List.map (λ kv, (fst kv, recursive_replace emoji_map (snd kv))) items)
                     = true).
    { destruct Hall as (-> & -> & ->). done. }
    clear Hnd.
    induction IH as [|[k v] items Hv _ IHitems]; [done|].
    simpl in Hkeys. apply andb_prop in Hkeys as [Hkv Hkitems].
    destruct (Hv Hkv) as (Hs & Hl & Hd).
    destruct (IHitems Hkitems) as (Hss & Hll & Hdd).
    simpl in *. rewrite Hs, Hl, Hd, Hss, Hll, Hdd, List.map_app. done.
Qed.

Lemma recursive_replace_shape_witness :
  distinct_keys sample_json = true ∧
  shape (recursive_replace {[ [0x1F436] := [0x1F98A] ]} sample_json)
    = shape sample_json ∧
  string_leaves (recursive_replace {[ [0x1F436] := [0x1F98A] ]} sample_json) =
    List.map (λ s, replace_emojis s {[ [0x1F436] := [0x1F98A] ]})
             (string_leaves sample_json) ∧
  distinct_keys (recursive_replace {[ [0x1F436] := [0x1F98A] ]} sample_json)
    = true.
Proof.
  assert (Hkeys : distinct_keys sample_json = true) by (vm_compute; reflexivity).
  split; [exact Hkeys|].
  exact (recursive_replace_shape {[ [0x1F436] := [0x1F98A] ]} sample_json Hkeys).
Defined.

(** ** The HTML handler *)

Lemma goahead_without_unhandled (html5 : gmap str str) (self : MyHTMLParser)
    (items : list html_item) :
  goahead html5 self items =
  goahead html5 self (List.filter (λ item, negb (unhandled item)) items).
Proof.
  revert self. induction items as [|item items IH]; intros self; [done|].
  cbn [List.filter]. destruct item; cbn [unhandled negb];
    unfold goahead in *; cbn [foldl]; apply IH.
Qed.

(** C10: the handlers reached for a comment, a declaration, a processing
    instruction and a marked section are those of the base class, which
    leave the parser as it is; the parser after any sequence of items, and
    so the file written by [process_html_file], is what it is without these
    items. *)
Theorem html_unhandled_items_dropped (html5 : gmap str str) (self : MyHTMLParser)
    (items : list html_item) :
  (∀ data, goahead_item html5 self (Comment data) = self) ∧
  (∀ decl, goahead_item html5 self (Decl decl) = self) ∧
  (∀ data, goahead_item html5 self (Pi data) = self) ∧
  (∀ data, goahead_item html5 self (UnknownDecl data) = self) ∧
  goahead html5 self items =
    goahead html5 self (List.filter (λ item, negb (unhandled item)) items) ∧
  (∀ (py : library) (src dst : str) (emoji_map : gmap str str) (w : world),
     process_html_file py src dst emoji_map w =
       text ← load_file w src;
       Some (save_file w dst
               (get_html (goahead (entities_html5 py) (MyHTMLParser_init emoji_map)
                            (List.filter (λ item, negb (unhandled item))
                                         (html_items py text)))))).
Proof.
  repeat split; try done.
  - apply goahead_without_unhandled.
  - intros py src dst m w. unfold process_html_file.
    destruct (load_file w src) as [text|]; [|done]. simpl.
    by rewrite <- goahead_without_unhandled.
Qed.

(** With [convert_charrefs] true the handlers of the references are not
    reached: the text between two tags goes through [unescape] and then
    through [handle_data]. *)
Lemma goahead_text_converted (html5 : gmap str str) (emoji_map : gmap str str)
    (acc : list str) (items : list text_item) :
  text_source items ≠ [] →
  goahead_item html5 (Parser true emoji_map acc) (Text items) =
  Parser true emoji_map
         (acc ++ [replace_emojis (unescape html5 (text_source items)) emoji_map]).
Proof.
  intros Hne. cbn [goahead_item convert_charrefs].
  destruct (text_source items) eqn:Hsrc; [done|]. reflexivity.
Qed.

Lemma charref_sub_other (html5 : gmap str str) (c : Z) (rest : str) :
  c ≠ 0x26 → charref_sub html5 (c :: rest) = c :: charref_sub html5 rest.
Proof. intros Hc. simp charref_sub. by destruct (decide (c = 0x26)). Qed.

Lemma charref_sub_reference (html5 : gmap str str) (rest s : str) :
  charref_group rest = Some s →
  charref_sub html5 (0x26 :: rest) =
  replace_charref html5 s ++ charref_sub html5 (drop (length s) rest).
Proof. intros Hs. simp charref_sub. cbn [decide]. by rewrite Hs. Qed.

Lemma replace_charref_amp (html5 : gmap str str) :
  html5 !! lit "amp;" = Some (lit "&") →
  replace_charref html5 (lit "amp;") = lit "&".
Proof. intros Hamp. unfold replace_charref. cbn. cbn in Hamp. by rewrite Hamp. Qed.

Lemma unescape_sample (html5 : gmap str str) :
  html5 !! lit "amp;" = Some (lit "&") →
  unescape html5 ([0x1F600] ++ lit " &amp; &#169;") =
  [0x1F600] ++ lit " & " ++ [0xA9].
Proof.
  intros Hamp. unfold unescape.
  replace (bool_decide (0x26 ∈ [0x1F600] ++ lit " &amp; &#169;")) with true
    by (vm_compute; reflexivity).
  change ([0x1F600] ++ lit " &amp; &#169;")
    with (0x1F600 :: 0x20 :: 0x26 :: lit "amp; &#169;").
  rewrite !charref_sub_other by done.
  rewrite (charref_sub_reference html5 _ (lit "amp;")) by reflexivity.
  rewrite replace_charref_amp by done.
  change (drop (length (lit "amp;")) (lit "amp; &#169;"))
    with (0x20 :: 0x26 :: lit "#169;").
  rewrite charref_sub_other by done.
  rewrite (charref_sub_reference html5 _ (lit "#169;")) by reflexivity.
  change (drop (length (lit "#169;")) (lit "#169;")) with (@nil Z).
  simp charref_sub. reflexivity.
Qed.

(** C3, on the code: the parser is created with [convert_charrefs] true,
    so for the file [<p>G &amp; &#169;</p>] the handler writes the
    characters that the two references denote, an ampersand and a copyright
    sign, and not the references as they stand in the file.  The handlers
    [handle_entityref] and [handle_charref], which are reached only when
    [convert_charrefs] is false, would have written them as they stand. *)
Theorem html_references_decoded (html5 : gmap str str) :
  html5 !! lit "amp;" = Some (lit "&") →
  build_emoji_map (get_emojis_in_order sample_html_source) ANDROID_EMOJI_POOL
    = Some sample_emoji_map ∧
  convert_charrefs (MyHTMLParser_init sample_emoji_map) = true ∧
  get_html (goahead html5 (MyHTMLParser_init sample_emoji_map) sample_html)
    = lit "<p>" ++ [0x1F436] ++ lit " & " ++ [0xA9] ++ lit "</p>" ∧
  get_html (goahead html5 (MyHTMLParser_init sample_emoji_map) sample_html)
    ≠ lit "<p>" ++ [0x1F436] ++ lit " &amp; &#169;</p>" ∧
  get_html (goahead html5 (Parser false sample_emoji_map []) sample_html)
    = lit "<p>" ++ [0x1F436] ++ lit " &amp; &#169;</p>".
Proof.
  intros Hamp.
  assert (Hrun : get_html (goahead html5 (MyHTMLParser_init sample_emoji_map)
                             sample_html)
                 = lit "<p>" ++ [0x1F436] ++ lit " & " ++ [0xA9] ++ lit "</p>").
  { unfold goahead, sample_html, MyHTMLParser_init. cbn [foldl HTMLParser_init].
    change (goahead_item html5 (Parser true sample_emoji_map []) (StartTag (lit "p") []))
      with (Parser true sample_emoji_map [lit "<p>"]).
    rewrite goahead_text_converted by (vm_compute; discriminate).
    change (text_source _) with ([0x1F600] ++ lit " &amp; &#169;").
    rewrite (unescape_sample html5 Hamp).
    vm_compute. reflexivity. }
  split; [vm_compute; reflexivity|]. split; [reflexivity|].
  split; [exact Hrun|]. split.
  - rewrite Hrun. vm_compute. discriminate.
  - vm_compute. reflexivity.
Qed.

Lemma html_references_decoded_witness :
  sample_html5 !! lit "amp;" = Some (lit "&") ∧
  build_emoji_map (get_emojis_in_order sample_html_source) ANDROID_EMOJI_POOL
    = Some sample_emoji_map ∧
  convert_charrefs (MyHTMLParser_init sample_emoji_map) = true ∧
  get_html (goahead sample_html5 (MyHTMLParser_init sample_emoji_map) sample_html)
    = lit "<p>" ++ [0x1F436] ++ lit " & " ++ [0xA9] ++ lit "</p>" ∧
  get_html (goahead sample_html5 (MyHTMLParser_init sample_emoji_map) sample_html)
    ≠ lit "<p>" ++ [0x1F436] ++ lit " &amp; &#169;</p>" ∧
  get_html (goahead sample_html5 (Parser false sample_emoji_map []) sample_html)
    = lit "<p>" ++ [0x1F436] ++ lit " &amp; &#169;</p>".
Proof.
  assert (Hamp : sample_html5 !! lit "amp;" = Some (lit "&"))
    by (vm_compute; reflexivity).
  split; [exact Hamp|].
  exact (html_references_decoded sample_html5 Hamp).
Defined.

(** ** The driver *)

Lemma get_emojis_in_order_nil (text : str) :
  extract_emojis text = [] → get_emojis_in_order text = [].
Proof.
  unfold extract_emojis, get_emojis_in_order. by intros ->.
Qed.

(** C8: for a file of the loop that can be read and whose text has no match
    of the scanner, the body of the loop prints the two notices, writes no
    file and raises nothing, and the loop goes on with the files that
    remain. *)
Theorem main_skips_file_without_emoji (py : library)
    (src_dir output_dir filename : str) (rest : list str) (w : world)
    (text : str) :
  load_file w (path_join src_dir filename) = Some text →
  extract_emojis text = [] →
  ∃ w' : world,
    main_body py src_dir output_dir filename w = Some w' ∧
    files w' = files w ∧
    dirs w' = dirs w ∧
    stdout w' = stdout w ++
      [lit "Processing " ++ filename;
       lit "  No emojis found in " ++ filename ++ lit ", skip."] ∧
    main_loop py src_dir output_dir (filename :: rest) w =
      main_loop py src_dir output_dir rest w'.
Proof.
  intros Hload Hnone.
  assert (Hbody : main_body py src_dir output_dir filename w =
            Some (print (print w (lit "Processing " ++ filename))
                        (lit "  No emojis found in " ++ filename ++ lit ", skip."))).
  { unfold main_body.
    change (load_file (print w (lit "Processing " ++ filename))
                      (path_join src_dir filename))
      with (load_file w (path_join src_dir filename)).
    rewrite Hload. cbn [mbind option_bind].
    by rewrite (get_emojis_in_order_nil text Hnone). }
  eexists. split; [exact Hbody|]. split; [done|]. split; [done|]. split.
  - cbn [print stdout]. by rewrite <- app_assoc.
  - cbn [main_loop]. by rewrite Hbody.
Qed.

Lemma main_skips_file_without_emoji_witness :
  load_file sample_world (path_join (lit "dir") (lit "notes.txt"))
    = Some (lit "plain text") ∧
  extract_emojis (lit "plain text") = [] ∧
  ∃ w' : world,
    main_body sample_library (lit "dir") (lit "dir/output") (lit "notes.txt")
              sample_world = Some w' ∧
    files w' = files sample_world ∧
    dirs w' = dirs sample_world ∧
    stdout w' = stdout sample_world ++
      [lit "Processing " ++ lit "notes.txt";
       lit "  No emojis found in " ++ lit "notes.txt" ++ lit ", skip."] ∧
    main_loop sample_library (lit "dir") (lit "dir/output")
              (lit "notes.txt" :: []) sample_world =
      main_loop sample_library (lit "dir") (lit "dir/output") [] w'.
Proof.
  assert (Hload : load_file sample_world (path_join (lit "dir") (lit "notes.txt"))
                  = Some (lit "plain text")) by (vm_compute; reflexivity).
  assert (Hnone : extract_emojis (lit "plain text") = [])
    by (vm_compute; reflexivity).
  split; [exact Hload|]. split; [exact Hnone|].
  exact (main_skips_file_without_emoji sample_library (lit "dir")
           (lit "dir/output") (lit "notes.txt") [] sample_world
           (lit "plain text") Hload Hnone).
Defined.

(** * Further properties *)

(** ** The scanner *)

Lemma after_run_head (text : str) (c : Z) (rest : str) :
  after_run text = c :: rest → emoji_class c = false.
Proof.
  induction text as [|c' text IH]; simpl; [done|].
  destruct (emoji_class c') eqn:Hc'; [exact IH|]. by intros [= <- _].
Qed.

Lemma class_run_Forall (text : str) :
  Forall (λ c, emoji_class c = true) (class_run text).
Proof.
  induction text as [|c rest IH]; simpl; [constructor|].
  destruct (emoji_class c) eqn:Hc; by constructor.
Qed.

Lemma regex_findall_segmentation (text : str) :
  ∃ gaps : list str,
    length gaps = S (length (extract_emojis text)) ∧
    text = interleave gaps (extract_emojis text) ∧
    Forall (Forall (λ c, emoji_class c = false)) gaps ∧
    Forall (λ m, m ≠ [] ∧ Forall (λ c, emoji_class c = true) m)
           (extract_emojis text) ∧
    (∀ (i : nat) (g : str),
       (0 < i < length (extract_emojis text))%nat → gaps !! i = Some g → g ≠ []).
Proof.
  unfold extract_emojis.
  enough (Hgen : ∃ gaps : list str,
    length gaps = S (length (regex_findall text)) ∧
    text = interleave gaps (regex_findall text) ∧
    Forall (Forall (λ c, emoji_class c = false)) gaps ∧
    Forall (λ m, m ≠ [] ∧ Forall (λ c, emoji_class c = true) m)
           (regex_findall text) ∧
    (∀ (i : nat) (g : str),
       (0 < i < length (regex_findall text))%nat → gaps !! i = Some g → g ≠ []) ∧
    (∀ c rest, text = c :: rest → emoji_class c = false →
               gaps !! 0%nat ≠ Some [])).
  { destruct Hgen as (gaps & ? & ? & ? & ? & ? & _). by exists gaps. }
  funelim (regex_findall text).
  - exists [[]]. repeat split; try done.
    + by repeat constructor.
    + simpl. intros; lia.
  - destruct (emoji_class c) eqn:Hc.
    + destruct H as (gaps & Hlen & Htext & Hgaps & Hruns & Hinner & Hfirst).
      exists ([] :: gaps). cbn [length interleave app].
      split; [by rewrite Hlen|]. split.
      { rewrite <- Htext. by rewrite class_run_after_run. }
      split; [by constructor|]. split.
      { constructor; [|done]. split; [done|].
        constructor; [done|apply class_run_Forall]. }
      split; [|intros ? ? [= -> _]; congruence].
      intros i g [Hi1 Hi2] Hg. destruct i as [|[|i]]; [lia| |].
      * simpl in Hg. destruct (after_run rest) as [|c' rest'] eqn:Hafter.
        { simp regex_findall in Hi2. simpl in Hi2. lia. }
        intros ->. eapply Hfirst; [done| |done].
        by eapply after_run_head.
      * simpl in Hg. apply (Hinner (S i)); [lia|done].
    + destruct H0 as (gaps & Hlen & Htext & Hgaps & Hruns & Hinner & Hfirst).
      destruct gaps as [|g0 gaps]; [done|].
      exists ((c :: g0) :: gaps). split; [done|]. split.
      { rewrite Htext at 1. by destruct (regex_findall rest). }
      split.
      { apply Forall_cons in Hgaps as [Hg0 Hgaps].
        constructor; [by constructor|done]. }
      split; [done|]. split; [|done].
      intros i g Hi Hg. destruct i as [|i]; [lia|].
      apply (Hinner (S i)); done.
Qed.

(** X1: the matches of the scanner are the maximal runs of characters of
    the class: the text is the matches with gaps around them, no gap has a
    character of the class, every match is a non-empty run of characters of
    the class, and every gap between two matches is non-empty. *)
Theorem extract_emojis_maximal_runs (text : str) :
  ∃ gaps : list str,
    length gaps = S (length (extract_emojis text)) ∧
    text = interleave gaps (extract_emojis text) ∧
    Forall (Forall (λ c, emoji_class c = false)) gaps ∧
    Forall (λ m, m ≠ [] ∧ Forall (λ c, emoji_class c = true) m)
           (extract_emojis text) ∧
    (∀ (i : nat) (g : str),
       (0 < i < length (extract_emojis text))%nat → gaps !! i = Some g → g ≠ []).
Proof. apply regex_findall_segmentation. Qed.

Lemma class_run_app (rest b : str) :
  (∀ x y, last rest = Some x → head b = Some y →
          emoji_class x = false ∨ emoji_class y = false) →
  (rest = [] → ∀ y, head b = Some y → emoji_class y = false) →
  class_run (rest ++ b) = class_run rest ∧
  after_run (rest ++ b) = after_run rest ++ b.
Proof.
  induction rest as [|c rest IH]; intros Hlast Hnil.
  - simpl. destruct b as [|y b]; [done|]. simpl.
    by rewrite (Hnil eq_refl y eq_refl).
  - simpl. destruct (emoji_class c) eqn:Hc; [|done].
    destruct IH as [IH1 IH2].
    + intros x y Hx Hy. apply (Hlast x y); [|done].
      destruct rest; [done|]. by rewrite last_cons_cons.
    + intros -> y Hy. destruct (Hlast c y eq_refl Hy); congruence.
    + by rewrite IH1, IH2.
Qed.

Lemma last_after_run (rest : str) (x : Z) :
  last (after_run rest) = Some x → last rest = Some x.
Proof.
  induction rest as [|c rest IH]; simpl; [done|].
  destruct (emoji_class c); [|done].
  intros Hx. specialize (IH Hx). destruct rest; [done|].
  by rewrite last_cons_cons.
Qed.

Lemma regex_app (repl : str → str) (a : str) :
  ∀ b : str,
    (∀ x y, last a = Some x → head b = Some y →
            emoji_class x = false ∨ emoji_class y = false) →
    regex_findall (a ++ b) = regex_findall a ++ regex_findall b ∧
    regex_sub repl (a ++ b) = regex_sub repl a ++ regex_sub repl b.
Proof.
  funelim (regex_findall a); intros b Hboundary.
  - simp regex_sub. done.
  - cbn [app]. simp regex_findall regex_sub.
    destruct (emoji_class c) eqn:Hc.
    + destruct (class_run_app rest b) as [Hrun Hafter].
      { intros x y Hx Hy. apply (Hboundary x y); [|done].
        destruct rest; [done|]. by rewrite last_cons_cons. }
      { intros -> y Hy. destruct (Hboundary c y eq_refl Hy); congruence. }
      rewrite Hrun, Hafter.
      destruct (H repl b) as [Hf Hs].
      { intros x y Hx Hy. apply (Hboundary x y); [|done].
        apply last_after_run in Hx. destruct rest; [done|].
        by rewrite last_cons_cons. }
      rewrite Hf, Hs. by rewrite <- app_assoc.
    + destruct (H0 repl b) as [Hf Hs].
      { intros x y Hx Hy. apply (Hboundary x y); [|done].
        destruct rest; [done|]. by rewrite last_cons_cons. }
      by rewrite Hf, Hs.
Qed.

(** X2: when the last character of a text and the first character of the
    next are not both in the class, the scanner and the substitution work on
    the two texts separately. *)
Theorem replace_emojis_app (a b : str) (emoji_map : gmap str str) :
  (∀ x y, last a = Some x → head b = Some y →
          emoji_class x = false ∨ emoji_class y = false) →
  extract_emojis (a ++ b) = extract_emojis a ++ extract_emojis b ∧
  replace_emojis (a ++ b) emoji_map =
    replace_emojis a emoji_map ++ replace_emojis b emoji_map.
Proof.
  intros Hboundary. apply (regex_app (replace_fn emoji_map) a b Hboundary).
Qed.

Lemma replace_emojis_app_witness :
  (∀ x y, last (lit "a " ++ [0x1F436]) = Some x →
          head (lit " b" ++ [0x1F431]) = Some y →
          emoji_class x = false ∨ emoji_class y = false) ∧
  extract_emojis ((lit "a " ++ [0x1F436]) ++ (lit " b" ++ [0x1F431])) =
    extract_emojis (lit "a " ++ [0x1F436]) ++
    extract_emojis (lit " b" ++ [0x1F431]) ∧
  replace_emojis ((lit "a " ++ [0x1F436]) ++ (lit " b" ++ [0x1F431]))
                 sample_emoji_map =
    replace_emojis (lit "a " ++ [0x1F436]) sample_emoji_map ++
    replace_emojis (lit " b" ++ [0x1F431]) sample_emoji_map.
Proof.
  assert (Hb : ∀ x y, last (lit "a " ++ [0x1F436]) = Some x →
                      head (lit " b" ++ [0x1F431]) = Some y →
                      emoji_class x = false ∨ emoji_class y = false).
  { intros x y _ [= <-]. by right. }
  split; [exact Hb|].
  exact (replace_emojis_app (lit "a " ++ [0x1F436]) (lit " b" ++ [0x1F431])
           sample_emoji_map Hb).
Defined.

Lemma replace_emojis_unmatched (text : str) (emoji_map : gmap str str) :
  (∀ e, e ∈ extract_emojis text → emoji_map !! e = None) →
  replace_emojis text emoji_map = text.
Proof.
  intros Hnone. unfold replace_emojis, extract_emojis in *.
  destruct (regex_sub_findall (replace_fn emoji_map) text)
    as (gaps & _ & _ & Htext & Hsub).
  rewrite Hsub. rewrite Htext at 2. f_equal.
  rewrite <- (list_fmap_id (regex_findall text)) at 2.
  apply list_fmap_ext. intros i e Hi.
  unfold replace_fn. rewrite Hnone; [done|]. by eapply list_elem_of_lookup_2.
Qed.

(** X3: a map none of whose keys is a match of the scanner in the text
    leaves the text unchanged; so does the empty map. *)
Theorem replace_emojis_no_key (text : str) (emoji_map : gmap str str) :
  (∀ e, e ∈ extract_emojis text → emoji_map !! e = None) →
  replace_emojis text emoji_map = text ∧ replace_emojis text ∅ = text.
Proof.
  intros Hnone. split; [by apply replace_emojis_unmatched|].
  apply replace_emojis_unmatched. intros e _. apply lookup_empty.
Qed.

Lemma replace_emojis_no_key_witness :
  (∀ e, e ∈ extract_emojis sample_text → sample_emoji_map !! e = None) ∧
  replace_emojis sample_text sample_emoji_map = sample_text ∧
  replace_emojis sample_text ∅ = sample_text.
Proof.
  assert (Hnone : ∀ e, e ∈ extract_emojis sample_text →
                       sample_emoji_map !! e = None).
  { intros e He.
    assert (Hms : extract_emojis sample_text = [[0x1F436; 0x1F431]; [0x1F34E]])
      by (vm_compute; reflexivity).
    rewrite Hms in He.
    apply elem_of_cons in He as [->|He]; [vm_compute; reflexivity|].
    apply elem_of_cons in He as [->|He]; [vm_compute; reflexivity|].
    by apply elem_of_nil in He. }
  split; [exact Hnone|].
  exact (replace_emojis_no_key sample_text sample_emoji_map Hnone).
Defined.

(** ** The mapping builder *)

(** On any list of emojis and a non-empty pool: the value of the [i]-th
    distinct emoji, and no other key. *)
Lemma build_emoji_map_any (emojis pool : list str) :
  pool ≠ [] →
  ∃ emoji_map : gmap str str,
    build_emoji_map emojis pool = Some emoji_map ∧
    (∀ i e, distinct_in_order emojis !! i = Some e →
            emoji_map !! e = pool !! (i `mod` length pool)%nat) ∧
    (∀ e, e ∉ emojis → emoji_map !! e = None).
Proof.
  intros Hpool. unfold build_emoji_map.
  rewrite (build_loop_fresh_firsts emojis ∅ pool), dom_empty_L.
  destruct (build_loop_distinct (fresh_firsts ∅ emojis) ∅ pool)
    as (m & Hrun & Hassign & Hframe);
    [apply NoDup_fresh_firsts|set_solver|done|].
  exists m. rewrite Hrun. split; [done|]. split.
  - intros i e Hi. apply Hassign. by rewrite <- distinct_in_order_fresh.
  - intros e He. rewrite Hframe; [apply lookup_empty|].
    rewrite elem_of_fresh_firsts. tauto.
Qed.

(** X4: [build_emoji_map] raises exactly when the pool is empty and there
    is an emoji to map. *)
Theorem build_emoji_map_raises_iff (emojis pool : list str) :
  build_emoji_map emojis pool = None ↔ pool = [] ∧ emojis ≠ [].
Proof.
  split.
  - intros Hnone. destruct pool as [|p pool].
    + split; [done|]. intros ->. discriminate.
    + destruct (build_emoji_map_any emojis (p :: pool)) as (m & Hm & _); [done|].
      congruence.
  - intros [-> Hne]. rewrite build_emoji_map_empty_pool.
    by destruct emojis.
Qed.

(** X5: with a non-empty pool the keys of the map are the emojis of the
    list, every value is an element of the pool, and the map has as many
    entries as the list has distinct emojis. *)
Theorem build_emoji_map_keys_values (emojis pool : list str) :
  pool ≠ [] →
  ∃ emoji_map : gmap str str,
    build_emoji_map emojis pool = Some emoji_map ∧
    dom emoji_map = list_to_set emojis ∧
    (∀ k v, emoji_map !! k = Some v → v ∈ pool) ∧
    size emoji_map = length (distinct_in_order emojis).
Proof.
  intros Hpool.
  destruct (build_emoji_map_any emojis pool Hpool) as (m & Hm & Hassign & Hframe).
  assert (Hlen : (0 < length pool)%nat) by (destruct pool; [done|simpl; lia]).
  assert (Hdom : dom m = list_to_set (distinct_in_order emojis)).
  { apply set_eq. intros k. rewrite elem_of_dom, elem_of_list_to_set. split.
    - intros [v Hv]. rewrite distinct_in_order_fresh, elem_of_fresh_firsts.
      split; [|set_solver].
      destruct (decide (k ∈ emojis)) as [|Hout]; [done|].
      rewrite (Hframe k Hout) in Hv. done.
    - intros [i Hi]%list_elem_of_lookup. rewrite (Hassign i k Hi).
      apply lookup_lt_is_Some. by apply Nat.mod_upper_bound; lia. }
  exists m. split; [done|]. split; [|split].
  - rewrite Hdom. apply set_eq. intros k. rewrite !elem_of_list_to_set.
    rewrite distinct_in_order_fresh, elem_of_fresh_firsts. set_solver.
  - intros k v Hk.
    assert (Hin : k ∈ distinct_in_order emojis).
    { rewrite <- (elem_of_list_to_set (C := gset str)), <- Hdom.
      apply elem_of_dom. by exists v. }
    apply list_elem_of_lookup in Hin as [i Hi].
    rewrite (Hassign i k Hi) in Hk. by eapply list_elem_of_lookup_2.
  - rewrite <- size_dom, Hdom. apply size_list_to_set.
    rewrite distinct_in_order_fresh. apply NoDup_fresh_firsts.
Qed.

Lemma build_emoji_map_keys_values_witness :
  sample_pool ≠ [] ∧
  ∃ emoji_map : gmap str str,
    build_emoji_map sample_emojis sample_pool = Some emoji_map ∧
    dom emoji_map = list_to_set sample_emojis ∧
    (∀ k v, emoji_map !! k = Some v → v ∈ sample_pool) ∧
    size emoji_map = length (distinct_in_order sample_emojis).
Proof.
  assert (Hpool : sample_pool ≠ []) by discriminate.
  split; [exact Hpool|].
  exact (build_emoji_map_keys_values sample_emojis sample_pool Hpool).
Defined.

Lemma fresh_firsts_NoDup_id (emojis : list str) (seen : gset str) :
  NoDup emojis → (∀ e, e ∈ emojis → e ∉ seen) →
  fresh_firsts seen emojis = emojis.
Proof.
  revert seen. induction emojis as [|em rest IH]; intros seen Hnd Hs; simpl.
  - reflexivity.
  - apply NoDup_cons in Hnd as [Hem Hnd].
    destruct (decide (em ∈ seen)) as [Hin|Hin].
    + exfalso. apply (Hs em); [left|done].
    + f_equal. apply IH; [done|].
      intros e He. specialize (Hs e ltac:(by right)). set_solver.
Qed.

(** X6: the loop of [get_emojis_in_order] returns a list without
    duplicates as it is, so running it twice is running it once; its result
    is empty exactly when there is no emoji, which is when [main] skips a
    file. *)
Theorem distinct_in_order_idempotent (emojis : list str) (text : str) :
  distinct_in_order (distinct_in_order emojis) = distinct_in_order emojis ∧
  (NoDup emojis ↔ distinct_in_order emojis = emojis) ∧
  (get_emojis_in_order text = [] ↔ extract_emojis text = []).
Proof.
  split; [|split].
  - rewrite !distinct_in_order_fresh.
    apply fresh_firsts_NoDup_id; [apply NoDup_fresh_firsts|set_solver].
  - split.
    + intros Hnd. rewrite distinct_in_order_fresh.
      apply fresh_firsts_NoDup_id; [done|set_solver].
    + intros <-. rewrite distinct_in_order_fresh. apply NoDup_fresh_firsts.
  - unfold get_emojis_in_order, extract_emojis. rewrite order_loop_snd. cbn [app].
    destruct (regex_findall text) as [|m ms]; [done|]. simpl.
    destruct (decide (m ∈ (∅ : gset str))); [set_solver|]. done.
Qed.

(** ** From the text of a file to its converted text *)

(** The keys of the map of a file are the matches of the scanner in its
    text, the values are emojis of the pool. *)
Lemma file_emoji_map_keys (text : str) :
  ∃ emoji_map : gmap str str,
    file_emoji_map text = Some emoji_map ∧
    (∀ i e, get_emojis_in_order text !! i = Some e →
            emoji_map !! e = ANDROID_EMOJI_POOL !! (i `mod` 100)%nat) ∧
    (∀ e, e ∈ extract_emojis text → ∃ v, emoji_map !! e = Some v ∧
                                          v ∈ ANDROID_EMOJI_POOL) ∧
    (∀ e, e ∉ extract_emojis text → emoji_map !! e = None).
Proof.
  unfold file_emoji_map.
  destruct (build_emoji_map_any (get_emojis_in_order text) ANDROID_EMOJI_POOL)
    as (m & Hm & Hassign & Hframe); [discriminate|].
  assert (Hdist : distinct_in_order (get_emojis_in_order text)
                  = get_emojis_in_order text).
  { rewrite distinct_in_order_fresh. apply fresh_firsts_NoDup_id; [|set_solver].
    unfold get_emojis_in_order. rewrite order_loop_snd. apply NoDup_fresh_firsts. }
  assert (Hmem : ∀ e, e ∈ get_emojis_in_order text ↔ e ∈ extract_emojis text).
  { intros e. unfold get_emojis_in_order, extract_emojis.
    rewrite order_loop_snd. cbn [app]. rewrite elem_of_fresh_firsts. set_solver. }
  exists m. split; [done|]. split; [|split].
  - intros i e Hi. rewrite <- ANDROID_EMOJI_POOL_length.
    apply Hassign. by rewrite Hdist.
  - intros e He. apply Hmem in He. apply list_elem_of_lookup in He as [i Hi].
    rewrite <- Hdist in Hi. rewrite (Hassign i e Hi).
    destruct (lookup_lt_is_Some_2 ANDROID_EMOJI_POOL
                (i `mod` length ANDROID_EMOJI_POOL)%nat) as [v Hv].
    { apply Nat.mod_upper_bound. rewrite ANDROID_EMOJI_POOL_length. lia. }
    exists v. split; [done|]. by eapply list_elem_of_lookup_2.
  - intros e He. apply Hframe. by rewrite Hmem.
Qed.

(** X7: for every text, the map that [main] builds exists, and
    [replace_emojis] with it replaces every match of the scanner by an emoji
    of the pool, the value of the map for the match, and leaves the text
    between the matches as it is. *)
Theorem file_text_converted (text : str) :
  ∃ (emoji_map : gmap str str) (gaps replacements : list str),
    file_emoji_map text = Some emoji_map ∧
    length gaps = S (length (extract_emojis text)) ∧
    text = interleave gaps (extract_emojis text) ∧
    replace_emojis text emoji_map = interleave gaps replacements ∧
    Forall2 (λ e r, emoji_map !! e = Some r ∧ r ∈ ANDROID_EMOJI_POOL)
            (extract_emojis text) replacements.
Proof.
  destruct (file_emoji_map_keys text) as (m & Hm & _ & Hkeys & _).
  destruct (regex_sub_findall (replace_fn m) text)
    as (gaps & Hlen & _ & Htext & Hsub).
  exists m, gaps, (replace_fn m <$> extract_emojis text).
  repeat split; try done.
  apply Forall2_fmap_r, Forall_Forall2_diag, Forall_forall.
  intros e He. unfold replace_fn. cbn [compose].
  destruct (Hkeys e He) as (v & Hv & Hin). rewrite Hv. done.
Qed.

(** X8: a run that is not a match of the scanner in the text of the file
    is not a key of the map of the file: a string whose matches are all of
    this kind, such as a value that a parser has decoded from an escape
    sequence, is left unchanged. *)
Theorem replace_emojis_only_runs_of_file (text s : str) :
  (∀ e, e ∈ extract_emojis s → e ∉ extract_emojis text) →
  ∃ emoji_map : gmap str str,
    file_emoji_map text = Some emoji_map ∧
    replace_emojis s emoji_map = s.
Proof.
  intros Hnew.
  destruct (file_emoji_map_keys text) as (m & Hm & _ & _ & Hnone).
  exists m. split; [done|]. apply replace_emojis_unmatched.
  intros e He. apply Hnone. by apply Hnew.
Qed.

Lemma replace_emojis_only_runs_of_file_witness :
  (∀ e, e ∈ extract_emojis (lit "x" ++ [0x1F436]) →
        e ∉ extract_emojis sample_text) ∧
  ∃ emoji_map : gmap str str,
    file_emoji_map sample_text = Some emoji_map ∧
    replace_emojis (lit "x" ++ [0x1F436]) emoji_map = lit "x" ++ [0x1F436].
Proof.
  assert (Hnew : ∀ e, e ∈ extract_emojis (lit "x" ++ [0x1F436]) →
                      e ∉ extract_emojis sample_text).
  { intros e He.
    assert (Hs : extract_emojis (lit "x" ++ [0x1F436]) = [[0x1F436]])
      by (vm_compute; reflexivity).
    assert (Hms : extract_emojis sample_text = [[0x1F436; 0x1F431]; [0x1F34E]])
      by (vm_compute; reflexivity).
    rewrite Hs in He. rewrite Hms.
    apply elem_of_cons in He as [->|He]; [|by apply elem_of_nil in He].
    intros Hin.
    apply elem_of_cons in Hin as [Hin|Hin]; [discriminate|].
    apply elem_of_cons in Hin as [Hin|Hin]; [discriminate|].
    by apply elem_of_nil in Hin. }
  split; [exact Hnew|].
  exact (replace_emojis_only_runs_of_file sample_text (lit "x" ++ [0x1F436]) Hnew).
Defined.

(** Runs of the class with gaps around them, non-empty between two runs,
    are what the scanner finds. *)
Lemma interleave_scan (repl : str → str) (runs : list str) :
  ∀ gaps : list str,
    length gaps = S (length runs) →
    Forall (Forall (λ c, emoji_class c = false)) gaps →
    Forall (λ r, r ≠ [] ∧ Forall (λ c, emoji_class c = true) r) runs →
    (∀ (i : nat) (g : str),
       (0 < i < length runs)%nat → gaps !! i = Some g → g ≠ []) →
    regex_findall (interleave gaps runs) = runs ∧
    regex_sub repl (interleave gaps runs) = interleave gaps (repl <$> runs).
Proof.
  induction runs as [|r runs IH]; intros gaps Hlen Hgaps Hruns Hinner.
  - destruct gaps as [|g [|? ?]]; try done. simpl.
    apply Forall_cons in Hgaps as [Hg _]. by apply regex_no_match.
  - destruct gaps as [|g gaps]; [done|].
    apply Forall_cons in Hgaps as [Hg Hgaps].
    apply Forall_cons in Hruns as [[Hr Hclass] Hruns].
    destruct (IH gaps) as [IHf IHs]; [simpl in Hlen; lia|done|done| |].
    { intros i g' Hi Hg'. apply (Hinner (S i)); [simpl; lia|done]. }
    cbn [interleave fmap list_fmap].
    destruct (regex_skip_prefix repl g (r ++ interleave gaps runs) Hg)
      as [Hf Hs].
    rewrite Hf, Hs.
    destruct (regex_app repl r (interleave gaps runs)) as [Hf2 Hs2].
    { intros x y _ Hy. right.
      destruct gaps as [|g' gaps]; [done|].
      apply Forall_cons in Hgaps as [Hg' _].
      destruct runs as [|r' runs].
      - simpl in Hy. destruct g' as [|c g']; [done|].
        injection Hy as <-. by apply Forall_cons in Hg' as [? _].
      - assert (g' ≠ []) as Hne.
        { apply (Hinner 1%nat); [simpl; lia|done]. }
        simpl in Hy. destruct g' as [|c g']; [done|].
        injection Hy as <-. by apply Forall_cons in Hg' as [? _]. }
    rewrite Hf2, Hs2, IHf, IHs.
    destruct r as [|c run]; [done|].
    destruct (regex_one_run repl c run [] Hclass) as [Hf1 Hs1]; [constructor|].
    rewrite app_nil_r in Hf1. rewrite !app_nil_r in Hs1.
    rewrite Hf1, Hs1. split; reflexivity.
Qed.

(** The loop of [get_emojis_in_order] commutes with a renaming that keeps
    different emojis different. *)
Lemma fresh_firsts_fmap (f : str → str) (emojis : list str) :
  ∀ seen seen' : gset str,
    (∀ x y, x ∈ emojis → y ∈ emojis → f x = f y → x = y) →
    (∀ x, x ∈ emojis → f x ∈ seen' ↔ x ∈ seen) →
    fresh_firsts seen' (f <$> emojis) = f <$> fresh_firsts seen emojis.
Proof.
  induction emojis as [|em rest IH]; intros seen seen' Hinj Hseen; [done|].
  cbn [fmap list_fmap fresh_firsts].
  destruct (decide (f em ∈ seen')) as [Hin|Hin];
    destruct (decide (em ∈ seen)) as [Hin'|Hin'].
  - apply IH; [|]; intros; [apply Hinj|apply Hseen]; set_solver.
  - exfalso. apply Hin'. apply Hseen; [left|done].
  - exfalso. apply Hin. apply Hseen; [left|done].
  - cbn [fmap list_fmap]. f_equal. apply IH.
    + intros; apply Hinj; set_solver.
    + intros x Hx. rewrite !elem_of_union, !elem_of_singleton.
      rewrite (Hseen x ltac:(by right)). split.
      * intros [Heq|?]; [left|by right]. apply Hinj; [by right|left|done].
      * intros [->|?]; [by left|by right].
Qed.

Lemma first_sixty_scanned :
  Forall (λ r, r ≠ [] ∧ Forall (λ c, emoji_class c = true) r)
         (take 60 ANDROID_EMOJI_POOL).
Proof.
  apply Forall_forall. intros r Hr.
  assert (Hb : forallb (λ r, negb (bool_decide (r = [])) && forallb emoji_class r)
                       (take 60 ANDROID_EMOJI_POOL) = true)
    by (vm_compute; reflexivity).
  rewrite forallb_forall in Hb. apply list_elem_of_In in Hr.
  specialize (Hb r Hr). apply andb_prop in Hb as [Hne Hall].
  split.
  - intros ->. done.
  - apply Forall_forall. intros c Hc. rewrite forallb_forall in Hall.
    apply Hall. by apply list_elem_of_In.
Qed.

(** X9: converting a converted text changes nothing, when the text has at
    most 60 distinct runs: the first 60 emojis of the pool are single
    characters of the scanner's ranges, so the scanner finds in the converted
    text the replacements, in the order of the pool, and the map built for
    them maps each to itself. *)
Theorem conversion_idempotent (text : str) :
  (length (get_emojis_in_order text) ≤ 60)%nat →
  ∃ emoji_map emoji_map' : gmap str str,
    file_emoji_map text = Some emoji_map ∧
    file_emoji_map (replace_emojis text emoji_map) = Some emoji_map' ∧
    replace_emojis (replace_emojis text emoji_map) emoji_map' =
      replace_emojis text emoji_map.
Proof.
  intros Hsixty.
  destruct (file_emoji_map_keys text) as (m & Hm & Hassign & _ & _).
  destruct (regex_findall_segmentation text)
    as (gaps & Hlen & Htext & Hgaps & Hruns & Hinner).
  unfold extract_emojis in *.
  set (f := replace_fn m).
  assert (Hmem : ∀ e, e ∈ regex_findall text → e ∈ get_emojis_in_order text).
  { intros e He. unfold get_emojis_in_order. rewrite order_loop_snd. cbn [app].
    rewrite elem_of_fresh_firsts. set_solver. }
  assert (Hval : ∀ e, e ∈ regex_findall text →
            ∃ i, get_emojis_in_order text !! i = Some e ∧ (i < 60)%nat ∧
                 ANDROID_EMOJI_POOL !! i = Some (f e)).
  { intros e He. apply Hmem in He. apply list_elem_of_lookup in He as [i Hi].
    pose proof (lookup_lt_Some _ _ _ Hi) as Hlt.
    exists i. split; [done|]. split; [lia|].
    pose proof (Hassign i e Hi) as Hme.
    rewrite Nat.mod_small in Hme by lia.
    destruct (lookup_lt_is_Some_2 ANDROID_EMOJI_POOL i) as [p Hp].
    { rewrite ANDROID_EMOJI_POOL_length. lia. }
    rewrite Hp in Hme. unfold f, replace_fn. by rewrite Hme. }
  assert (Hinj : ∀ x y, x ∈ regex_findall text → y ∈ regex_findall text →
                        f x = f y → x = y).
  { intros x y Hx Hy Hxy.
    destruct (Hval x Hx) as (i & Hi & _ & Hpi).
    destruct (Hval y Hy) as (j & Hj & _ & Hpj).
    rewrite Hxy in Hpi.
    assert (i = j)
      by (eapply NoDup_lookup; eauto using ANDROID_EMOJI_POOL_NoDup).
    subst j. congruence. }
  assert (Hruns' : Forall (λ r, r ≠ [] ∧ Forall (λ c, emoji_class c = true) r)
                          (f <$> regex_findall text)).
  { apply Forall_fmap, Forall_forall. intros e He. cbn [compose].
    destruct (Hval e He) as (i & _ & Hi & Hp).
    pose proof first_sixty_scanned as Hall. rewrite Forall_forall in Hall.
    apply Hall. apply list_elem_of_lookup. exists i.
    by rewrite lookup_take_lt. }
  assert (Hout : replace_emojis text m = interleave gaps (f <$> regex_findall text)).
  { unfold replace_emojis. rewrite Htext at 1.
    by apply interleave_scan. }
  assert (Hscan : ∀ repl,
            regex_findall (replace_emojis text m) = f <$> regex_findall text ∧
            regex_sub repl (replace_emojis text m) =
              interleave gaps (repl <$> (f <$> regex_findall text))).
  { intros repl. rewrite Hout.
    apply interleave_scan; rewrite ?length_fmap; done. }
  assert (Horder : get_emojis_in_order (replace_emojis text m)
                   = f <$> get_emojis_in_order text).
  { unfold get_emojis_in_order. rewrite (proj1 (Hscan id)).
    rewrite !order_loop_snd. cbn [app].
    apply fresh_firsts_fmap; [done|]. set_solver. }
  destruct (file_emoji_map_keys (replace_emojis text m))
    as (m' & Hm' & Hassign' & _ & _).
  exists m, m'. split; [done|]. split; [done|].
  unfold replace_emojis at 1. rewrite (proj2 (Hscan (replace_fn m'))).
  rewrite Hout. f_equal.
  rewrite <- list_fmap_compose. apply list_fmap_ext. intros k e Hk.
  cbn [compose].
  destruct (Hval e) as (i & Hi & Hlt & Hp); [by eapply list_elem_of_lookup_2|].
  assert (Hi' : get_emojis_in_order (replace_emojis text m) !! i = Some (f e))
    by (by rewrite Horder, list_lookup_fmap, Hi).
  pose proof (Hassign' i (f e) Hi') as Hme.
  rewrite Nat.mod_small in Hme by lia. rewrite Hp in Hme.
  unfold replace_fn at 1. by rewrite Hme.
Qed.

Lemma conversion_idempotent_witness :
  (length (get_emojis_in_order sample_text) ≤ 60)%nat ∧
  ∃ emoji_map emoji_map' : gmap str str,
    file_emoji_map sample_text = Some emoji_map ∧
    file_emoji_map (replace_emojis sample_text emoji_map) = Some emoji_map' ∧
    replace_emojis (replace_emojis sample_text emoji_map) emoji_map' =
      replace_emojis sample_text emoji_map.
Proof.
  assert (Hsixty : (length (get_emojis_in_order sample_text) ≤ 60)%nat)
    by (vm_compute; lia).
  split; [exact Hsixty|].
  exact (conversion_idempotent sample_text Hsixty).
Defined.

(** ** The XML and CSV handlers *)

Section element_induction.
Variable P : element → Prop.
Hypothesis HElement : ∀ tag attrib text tail children,
  Forall P children → P (Element tag attrib text tail children).

Fixpoint element_induction (elem : element) : P elem :=
  match elem with
  | Element tag attrib text tail children =>
      HElement tag attrib text tail children
        ((fix all (l : list element) : Forall P l :=
            match l with
            | [] => List.Forall_nil P
            | x :: l' => List.Forall_cons P x l' (element_induction x) (all l')
            end) children)
  end.
End element_induction.

Lemma replace_if_any_spec (emoji_map : gmap str str) (t : option str) :
  erase_text (replace_if_any emoji_map t) = erase_text t ∧
  text_list (replace_if_any emoji_map t) =
    List.map (λ s, replace_emojis s emoji_map) (text_list t) ∧
  (replace_if_any emoji_map t = None ↔ t = None).
Proof.
  destruct t as [[|c s]|]; simpl; repeat split; try done.
Qed.

(** X10: [recursive_xml] keeps the tree: tags, attributes, the children of
    every element and which elements have a text or a tail are the same; no
    text is created where there was none; the texts are those of the input
    after [replace_emojis], one for one. *)
Theorem recursive_xml_shape (emoji_map : gmap str str) (root : element) :
  xml_shape (recursive_xml emoji_map root) = xml_shape root ∧
  xml_texts (recursive_xml emoji_map root) =
    List.map (λ s, replace_emojis s emoji_map) (xml_texts root).
Proof.
  induction root as [tag attrib text tail children IH] using element_induction.
  cbn [recursive_xml xml_shape xml_texts].
  destruct (replace_if_any_spec emoji_map text) as (Ht1 & Ht2 & _).
  destruct (replace_if_any_spec emoji_map tail) as (Hl1 & Hl2 & _).
  rewrite Ht1, Ht2, Hl1, Hl2, !List.map_app.
  enough (Hall : List.map xml_shape (List.map (recursive_xml emoji_map) children)
                   = List.map xml_shape children ∧
                 flat_map xml_texts (List.map (recursive_xml emoji_map) children)
                   = List.map (λ s, replace_emojis s emoji_map)
                       (flat_map xml_texts children)).
  { destruct Hall as [-> ->]. done. }
  induction IH as [|x children [Hx1 Hx2] _ [IH1 IH2]]; [done|].
  simpl. rewrite Hx1, Hx2, IH1, IH2, List.map_app. done.
Qed.

(** X11: [replace_rows] keeps the number of rows and the number of cells
    of every row, and the cell at a place of the output is the cell at that
    place of the input after [replace_emojis]. *)
Theorem replace_rows_shape (emoji_map : gmap str str) (reader : list (list str)) :
  length (replace_rows emoji_map reader) = length reader ∧
  List.map (@length str) (replace_rows emoji_map reader) =
    List.map (@length str) reader ∧
  (∀ (i j : nat) (row : list str) (cell : str),
     reader !! i = Some row → row !! j = Some cell →
     ∃ new_row, replace_rows emoji_map reader !! i = Some new_row ∧
                new_row !! j = Some (replace_emojis cell emoji_map)).
Proof.
  unfold replace_rows. split; [apply List.length_map|]. split.
  - rewrite List.map_map. apply List.map_ext. intros row.
    apply List.length_map.
  - intros i j row cell Hi Hj.
    exists (List.map (λ cell, replace_emojis cell emoji_map) row). split.
    + change (List.map ?f reader) with (f <$> reader).
      by rewrite list_lookup_fmap, Hi.
    + change (List.map ?f row) with (f <$> row).
      by rewrite list_lookup_fmap, Hj.
Qed.

(** ** The HTML parser *)

Lemma goahead_item_invariant (html5 : gmap str str) (self : MyHTMLParser)
    (item : html_item) :
  convert_charrefs (goahead_item html5 self item) = convert_charrefs self ∧
  emoji_map (goahead_item html5 self item) = emoji_map self ∧
  result self `prefix_of` result (goahead_item html5 self item).
Proof.
  assert (Htext : ∀ (items : list text_item) (self : MyHTMLParser),
            convert_charrefs (foldl goahead_text_item self items)
              = convert_charrefs self ∧
            emoji_map (foldl goahead_text_item self items) = emoji_map self ∧
            result self `prefix_of` result (foldl goahead_text_item self items)).
  { clear. induction items as [|t items IH]; intros self; [done|].
    cbn [foldl]. destruct (IH (goahead_text_item self t)) as (-> & -> & Hpre).
    destruct t; cbn; (split; [done|]; split; [done|]);
      (etrans; [|exact Hpre]); by apply prefix_app_r. }
  destruct item; cbn; try done;
    try (split; [done|]; split; [done|]; by apply prefix_app_r).
  - split; [done|]. split; [done|]. rewrite <- app_assoc. by apply prefix_app_r.
  - destruct (convert_charrefs self) eqn:Hflag.
    2:{ destruct (Htext items self) as (H1 & H2 & H3). by rewrite H1. }
    destruct (text_source items); cbn; [done|].
    split; [done|]. split; [done|]. by apply prefix_app_r.
Qed.

Lemma goahead_invariant (html5 : gmap str str) (items : list html_item) :
  ∀ self : MyHTMLParser,
    convert_charrefs (goahead html5 self items) = convert_charrefs self ∧
    emoji_map (goahead html5 self items) = emoji_map self ∧
    result self `prefix_of` result (goahead html5 self items).
Proof.
  unfold goahead. induction items as [|item items IH]; intros self; [done|].
  cbn [foldl].
  destruct (IH (goahead_item html5 self item)) as (-> & -> & Hpre).
  destruct (goahead_item_invariant html5 self item) as (-> & -> & Hpre').
  split; [done|]. split; [done|]. by etrans.
Qed.

(** X12: while the parser runs, each handler only appends to [result]:
    what was written stays at the front; the map and the flag
    [convert_charrefs] of the parser do not change. *)
Theorem html_parser_invariants (html5 : gmap str str) (self : MyHTMLParser)
    (items : list html_item) :
  convert_charrefs (goahead html5 self items) = convert_charrefs self ∧
  emoji_map (goahead html5 self items) = emoji_map self ∧
  result self `prefix_of` result (goahead html5 self items) ∧
  get_html self `prefix_of` get_html (goahead html5 self items).
Proof.
  destruct (goahead_invariant html5 items self) as (Hflag & Hmap & Hpre).
  repeat split; try done.
  destruct Hpre as [more Hmore]. unfold get_html.
  rewrite Hmore, concat_app. by apply prefix_app_r.
Qed.



(** X14: what the parser writes for tags, comments, declarations and
    processing instructions does not depend on the map: emojis in tag names,
    attribute names and attribute values are never replaced. *)
Theorem html_markup_not_substituted (html5 : gmap str str)
    (emoji_map1 emoji_map2 : gmap str str) (items : list html_item) :
  Forall (λ item, holds_data item = false) items →
  get_html (goahead html5 (MyHTMLParser_init emoji_map1) items) =
  get_html (goahead html5 (MyHTMLParser_init emoji_map2) items).
Proof.
  intros Hitems. unfold get_html. f_equal.
  unfold MyHTMLParser_init. generalize (HTMLParser_init None). intros flag.
  generalize (@nil str). unfold goahead.
  induction Hitems as [|item items Hitem _ IH]; intros acc; [done|].
  cbn [foldl].
  destruct item; try discriminate Hitem; cbn; apply IH.
Qed.

Lemma html_markup_not_substituted_witness :
  Forall (λ item, holds_data item = false)
         [StartTag (lit "a") [([0x1F600], Some [0x1F600])]; Comment [0x1F600];
          EndTag (lit "a")] ∧
  get_html (goahead sample_html5 (MyHTMLParser_init sample_emoji_map)
              [StartTag (lit "a") [([0x1F600], Some [0x1F600])];
               Comment [0x1F600]; EndTag (lit "a")]) =
  get_html (goahead sample_html5 (MyHTMLParser_init ∅)
              [StartTag (lit "a") [([0x1F600], Some [0x1F600])];
               Comment [0x1F600]; EndTag (lit "a")]).
Proof.
  assert (Hitems : Forall (λ item, holds_data item = false)
            [StartTag (lit "a") [([0x1F600], Some [0x1F600])]; Comment [0x1F600];
             EndTag (lit "a")]) by (by repeat constructor).
  split; [exact Hitems|].
  exact (html_markup_not_substituted sample_html5 sample_emoji_map ∅ _ Hitems).
Defined.

(** ** The driver *)

Lemma save_file_frame (w : world) (dst content : str) :
  (∀ path, path ≠ dst → files (save_file w dst content) !! path = files w !! path) ∧
  dirs (save_file w dst content) = dirs w ∧
  stdout (save_file w dst content) = stdout w.
Proof.
  repeat split. intros path Hne. cbn. by rewrite lookup_insert_ne.
Qed.

(** Every handler that returns has written its destination and nothing
    else. *)
Lemma handlers_write_dst (py : library) (src dst : str)
    (emoji_map : gmap str str) (w w' : world) :
  process_json_file py src dst emoji_map w = Some w' ∨
  process_txt_file src dst emoji_map w = Some w' ∨
  process_md_file src dst emoji_map w = Some w' ∨
  process_csv_file py src dst emoji_map w = Some w' ∨
  process_xml_file py src dst emoji_map w = Some w' ∨
  process_html_file py src dst emoji_map w = Some w' →
  ∃ content, w' = save_file w dst content.
Proof.
  unfold process_md_file, process_json_file, process_txt_file,
    process_csv_file, process_xml_file, process_html_file.
  intros H. destruct (load_file w src) as [text|]; cbn in H.
  2:{ by repeat destruct H as [H|H]. }
  destruct H as [H|[H|[H|[H|[H|H]]]]].
  - destruct (json_load py text); cbn in H; [|done]. injection H as <-. eauto.
  - injection H as <-. eauto.
  - injection H as <-. eauto.
  - injection H as <-. eauto.
  - destruct (xml_parse py text); cbn in H; [|done]. injection H as <-. eauto.
  - injection H as <-. eauto.
Qed.

Lemma main_body_frame (py : library) (src_dir output_dir filename : str)
    (w w' : world) :
  main_body py src_dir output_dir filename w = Some w' →
  (∀ path, path ≠ path_join output_dir filename →
           files w' !! path = files w !! path) ∧
  dirs w' = dirs w ∧
  stdout w `prefix_of` stdout w'.
Proof.
  unfold main_body. set (w0 := print w (lit "Processing " ++ filename)).
  assert (Hw0 : files w0 = files w ∧ dirs w0 = dirs w ∧
                stdout w `prefix_of` stdout w0).
  { repeat split. by apply prefix_app_r. }
  destruct Hw0 as (Hf0 & Hd0 & Hs0).
  destruct (load_file w0 (path_join src_dir filename)) as [text|]; [|done].
  cbn [mbind option_bind].
  destruct (get_emojis_in_order text) as [|e es].
  { intros [= <-]. cbn. rewrite <- app_assoc. repeat split.
    by apply prefix_app_r. }
  destruct (build_emoji_map (e :: es) ANDROID_EMOJI_POOL) as [m|]; [|done].
  cbn [mbind option_bind].
  assert (Hhandler : ∀ w', (∃ content, w' = save_file w0 (path_join output_dir filename) content) →
            (∀ path, path ≠ path_join output_dir filename →
                     files w' !! path = files w !! path) ∧
            dirs w' = dirs w ∧ stdout w `prefix_of` stdout w').
  { intros w1 [content ->].
    destruct (save_file_frame w0 (path_join output_dir filename) content)
      as (Hf & Hd & Hs).
    rewrite Hd, Hs, <- Hf0. done. }
  repeat case_decide; try case_bool_decide; intros Hrun;
    try (apply Hhandler;
         apply (handlers_write_dst py (path_join src_dir filename)
                  (path_join output_dir filename) m w0 w'); tauto).
  injection Hrun as <-. cbn. rewrite <- app_assoc. repeat split.
  by apply prefix_app_r.
Qed.

Lemma main_loop_app (py : library) (src_dir output_dir : str)
    (files1 files2 : list str) (w : world) :
  main_loop py src_dir output_dir (files1 ++ files2) w =
  main_loop py src_dir output_dir files1 w ≫=
    main_loop py src_dir output_dir files2.
Proof.
  revert w. induction files1 as [|f files1 IH]; intros w; [done|].
  cbn [app main_loop].
  destruct (main_body py src_dir output_dir f w); [apply IH|done].
Qed.

Lemma main_loop_frame (py : library) (src_dir output_dir : str)
    (names : list str) :
  ∀ w w' : world,
    main_loop py src_dir output_dir names w = Some w' →
    (∀ path, path ∉ path_join output_dir <$> names →
             files w' !! path = files w !! path) ∧
    dirs w' = dirs w ∧
    stdout w `prefix_of` stdout w'.
Proof.
  induction names as [|f names IH]; intros w w'; cbn [main_loop].
  - by intros [= <-].
  - destruct (main_body py src_dir output_dir f w) as [w1|] eqn:Hbody; [|done].
    intros Hrest.
    destruct (main_body_frame _ _ _ _ _ _ Hbody) as (Hf1 & Hd1 & Hs1).
    destruct (IH _ _ Hrest) as (Hf & Hd & Hs).
    split; [|split].
    + intros path Hpath. cbn [fmap list_fmap] in Hpath.
      apply not_elem_of_cons in Hpath as [Hne Hpath].
      rewrite Hf by done. by apply Hf1.
    + congruence.
    + by etrans.
Qed.

(** X15: a run of the loop of [main] that ends without exception has
    changed no file other than the destinations of the names of the loop, has
    created no directory, and has only added lines to the console. *)
Theorem main_loop_writes_only_destinations (py : library)
    (src_dir output_dir : str) (names : list str) (w w' : world) :
  main_loop py src_dir output_dir names w = Some w' →
  (∀ path, path ∉ path_join output_dir <$> names →
           files w' !! path = files w !! path) ∧
  dirs w' = dirs w ∧
  stdout w `prefix_of` stdout w'.
Proof. apply main_loop_frame. Qed.

Lemma main_loop_writes_only_destinations_witness :
  ∃ w' : world,
    main_loop sample_posix_library (lit "dir") (lit "dir/output")
              [lit "notes.txt"; lit "story.md"] sample_directory = Some w' ∧
    (∀ path, path ∉ path_join (lit "dir/output") <$>
                      [lit "notes.txt"; lit "story.md"] →
             files w' !! path = files sample_directory !! path) ∧
    dirs w' = dirs sample_directory ∧
    stdout sample_directory `prefix_of` stdout w'.
Proof.
  eexists. split; [vm_compute; reflexivity|].
  apply (main_loop_writes_only_destinations sample_posix_library (lit "dir")
           (lit "dir/output") [lit "notes.txt"; lit "story.md"]
           sample_directory).
  vm_compute. reflexivity.
Defined.

Lemma output_path_name (src_dir f g : str) :
  path_join src_dir f = path_join (path_join src_dir (lit "output")) g →
  lit "output" `prefix_of` f.
Proof.
  unfold path_join. rewrite <- !app_assoc. intros Heq.
  apply app_inv_head in Heq. apply app_inv_head in Heq.
  rewrite Heq. by apply prefix_app_r.
Qed.

(** X16: a run of [main] that ends without exception has left every file
    of the directory whose name does not start with [output] as it was, the
    files it has read among them; it has created the output directory and no
    other, and has only added lines to the console. *)
Theorem main_keeps_input_files (py : library) (src_dir : str) (w w' : world) :
  main py src_dir w = Some w' →
  (∀ f, ¬ lit "output" `prefix_of` f →
        files w' !! path_join src_dir f = files w !! path_join src_dir f) ∧
  dirs w' = {[path_join src_dir (lit "output")]} ∪ dirs w ∧
  stdout w `prefix_of` stdout w'.
Proof.
  unfold main. intros Hrun.
  apply main_loop_frame in Hrun as (Hf & Hd & Hs).
  split; [|split; [exact Hd|exact Hs]].
  intros f Hf'. rewrite Hf; [done|].
  intros Hin. apply list_elem_of_fmap in Hin as (g & Hg & _).
  apply Hf'. by eapply output_path_name.
Qed.

Lemma main_keeps_input_files_witness :
  ∃ w' : world,
    main sample_posix_library (lit "dir") sample_directory = Some w' ∧
    (∀ f, ¬ lit "output" `prefix_of` f →
          files w' !! path_join (lit "dir") f =
          files sample_directory !! path_join (lit "dir") f) ∧
    dirs w' = {[path_join (lit "dir") (lit "output")]} ∪ dirs sample_directory ∧
    stdout sample_directory `prefix_of` stdout w'.
Proof.
  eexists. split; [vm_compute; reflexivity|].
  apply (main_keeps_input_files sample_posix_library (lit "dir") sample_directory).
  vm_compute. reflexivity.
Defined.



Lemma main_body_with_emojis (py : library) (src_dir output_dir filename : str)
    (w : world) (text : str) :
  load_file w (path_join src_dir filename) = Some text →
  extract_emojis text ≠ [] →
  ∃ (e : str) (es : list str) (emoji_map : gmap str str),
    get_emojis_in_order text = e :: es ∧
    file_emoji_map text = Some emoji_map ∧
    build_emoji_map (e :: es) ANDROID_EMOJI_POOL = Some emoji_map ∧
    load_file (print w (lit "Processing " ++ filename))
              (path_join src_dir filename) = Some text.
Proof.
  intros Hload Hsome.
  destruct (file_emoji_map_keys text) as (m & Hm & _).
  destruct (get_emojis_in_order text) as [|e es] eqn:Horder.
  { exfalso. apply Hsome. unfold get_emojis_in_order in Horder.
    rewrite order_loop_snd in Horder. cbn [app] in Horder.
    unfold extract_emojis. destruct (regex_findall text) as [|x xs]; [done|].
    simpl in Horder. destruct (decide (x ∈ (∅ : gset str))); [set_solver|done]. }
  exists e, es, m. split; [done|]. split; [done|]. split; [|done].
  unfold file_emoji_map in Hm. by rewrite Horder in Hm.
Qed.

(** X18: for a readable file with an emoji whose extension, in lower case,
    is [.txt] or [.md], the body of the loop prints the notice and writes to
    the destination the text after [replace_emojis] with the map of the
    file; the two extensions are handled alike. *)
Theorem main_body_text_file (py : library) (src_dir output_dir filename : str)
    (w : world) (text : str) :
  load_file w (path_join src_dir filename) = Some text →
  extract_emojis text ≠ [] →
  lower py (snd (splitext py filename)) = lit ".txt" ∨
  lower py (snd (splitext py filename)) = lit ".md" →
  ∃ emoji_map : gmap str str,
    file_emoji_map text = Some emoji_map ∧
    main_body py src_dir output_dir filename w =
      Some (save_file (print w (lit "Processing " ++ filename))
                      (path_join output_dir filename)
                      (replace_emojis text emoji_map)).
Proof.
  intros Hload Hsome Hext.
  destruct (main_body_with_emojis py src_dir output_dir filename w text
              Hload Hsome) as (e & es & m & Horder & Hm & Hbuild & Hload').
  exists m. split; [done|].
  unfold main_body. rewrite Hload'. cbn [mbind option_bind].
  rewrite Horder, Hbuild. cbn [mbind option_bind].
  unfold process_md_file, process_txt_file. rewrite Hload'.
  destruct Hext as [-> | ->]; reflexivity.
Qed.

Lemma main_body_text_file_witness :
  load_file sample_directory (path_join (lit "dir") (lit "story.md"))
    = Some sample_text ∧
  extract_emojis sample_text ≠ [] ∧
  (lower sample_posix_library (snd (splitext sample_posix_library (lit "story.md")))
     = lit ".txt" ∨
   lower sample_posix_library (snd (splitext sample_posix_library (lit "story.md")))
     = lit ".md") ∧
  ∃ emoji_map : gmap str str,
    file_emoji_map sample_text = Some emoji_map ∧
    main_body sample_posix_library (lit "dir") (lit "dir/output")
              (lit "story.md") sample_directory =
      Some (save_file (print sample_directory (lit "Processing " ++ lit "story.md"))
                      (path_join (lit "dir/output") (lit "story.md"))
                      (replace_emojis sample_text emoji_map)).
Proof.
  assert (Hload : load_file sample_directory
                    (path_join (lit "dir") (lit "story.md")) = Some sample_text)
    by (vm_compute; reflexivity).
  assert (Hsome : extract_emojis sample_text ≠ []) by (vm_compute; discriminate).
  assert (Hext : lower sample_posix_library
                   (snd (splitext sample_posix_library (lit "story.md")))
                 = lit ".txt" ∨
                 lower sample_posix_library
                   (snd (splitext sample_posix_library (lit "story.md")))
                 = lit ".md") by (right; vm_compute; reflexivity).
  split; [exact Hload|]. split; [exact Hsome|]. split; [exact Hext|].
  exact (main_body_text_file sample_posix_library (lit "dir") (lit "dir/output")
           (lit "story.md") sample_directory sample_text Hload Hsome Hext).
Defined.



(** X20: for a readable file with an emoji whose extension, in lower
    case, is none of the seven that are handled, the body of the loop prints
    the two notices and writes nothing. *)
Theorem main_body_unsupported (py : library) (src_dir output_dir filename : str)
    (w : world) (text : str) :
  load_file w (path_join src_dir filename) = Some text →
  extract_emojis text ≠ [] →
  lower py (snd (splitext py filename)) ∉ SUPPORTED_EXTS →
  ∃ w' : world,
    main_body py src_dir output_dir filename w = Some w' ∧
    files w' = files w ∧
    stdout w' = stdout w ++
      [lit "Processing " ++ filename;
       lit "  Unsupported file type: " ++ filename].
Proof.
  intros Hload Hsome Hext.
  destruct (main_body_with_emojis py src_dir output_dir filename w text
              Hload Hsome) as (e & es & m & Horder & Hm & Hbuild & Hload').
  eexists. split.
  - unfold main_body. rewrite Hload'. cbn [mbind option_bind].
    rewrite Horder, Hbuild. cbn [mbind option_bind].
    unfold SUPPORTED_EXTS in Hext.
    repeat (case_decide; [exfalso; apply Hext; set_solver|]).
    case_bool_decide; [exfalso; apply Hext; set_solver|]. reflexivity.
  - split; [done|]. cbn. by rewrite <- app_assoc.
Qed.

Lemma main_body_unsupported_witness :
  load_file sample_directory (path_join (lit "dir") (lit "story.md"))
    = Some sample_text ∧
  extract_emojis sample_text ≠ [] ∧
  (lower sample_library (snd (splitext sample_library (lit "story.md")))
     ∉ SUPPORTED_EXTS) ∧
  ∃ w' : world,
    main_body sample_library (lit "dir") (lit "dir/output") (lit "story.md")
              sample_directory = Some w' ∧
    files w' = files sample_directory ∧
    stdout w' = stdout sample_directory ++
      [lit "Processing " ++ lit "story.md";
       lit "  Unsupported file type: " ++ lit "story.md"].
Proof.
  assert (Hload : load_file sample_directory
                    (path_join (lit "dir") (lit "story.md")) = Some sample_text)
    by (vm_compute; reflexivity).
  assert (Hsome : extract_emojis sample_text ≠ []) by (vm_compute; discriminate).
  assert (Hext : lower sample_library
                   (snd (splitext sample_library (lit "story.md")))
                 ∉ SUPPORTED_EXTS) by by_evaluation.
  split; [exact Hload|]. split; [exact Hsome|]. split; [exact Hext|].
  exact (main_body_unsupported sample_library (lit "dir") (lit "dir/output")
           (lit "story.md") sample_directory sample_text Hload Hsome Hext).
Defined.

(** ** The character class and the pool *)

(** X21: the eleven ranges of [EMOJI_REGEX] are three intervals of code
    points: U+24C2 to U+1F251, which contains the range U+2702 to U+27B0,
    U+1F300 to U+1F64F, and U+1F680 to U+1FAFF.  No character below U+24C2,
    so no ASCII character, is ever part of a match. *)
Theorem emoji_class_intervals (c : Z) :
  (emoji_class c = true ↔
     0x24C2 ≤ c ≤ 0x1F251 ∨ 0x1F300 ≤ c ≤ 0x1F64F ∨ 0x1F680 ≤ c ≤ 0x1FAFF) ∧
  (c < 0x24C2 → emoji_class c = false).
Proof.
  assert (Hclass : emoji_class c = true ↔
            0x24C2 ≤ c ≤ 0x1F251 ∨ 0x1F300 ≤ c ≤ 0x1F64F ∨ 0x1F680 ≤ c ≤ 0x1FAFF).
  { unfold emoji_class, in_range.
    rewrite !orb_true_iff, !andb_true_iff, !Z.leb_le. lia. }
  split; [exact Hclass|].
  intros Hlow. apply not_true_iff_false. rewrite Hclass. lia.
Qed.

(** X22: of the hundred emojis of the pool, the scanner finds every one as
    one match, itself, except the watch U+231A, in which it finds nothing:
    a watch written as a replacement is not an emoji for a later run. *)
Theorem pool_emojis_scanned :
  extract_emojis [0x231A] = [] ∧
  ANDROID_EMOJI_POOL !! 60%nat = Some [0x231A] ∧
  ∀ e, e ∈ ANDROID_EMOJI_POOL → e ≠ [0x231A] → extract_emojis e = [e].
Proof.
  split; [vm_compute; reflexivity|]. split; [reflexivity|].
  assert (Hall : forallb (λ e, bool_decide (e = [0x231A]) ||
                               bool_decide (extract_emojis e = [e]))
                         ANDROID_EMOJI_POOL = true) by (vm_compute; reflexivity).
  intros e He Hne. rewrite forallb_forall in Hall.
  specialize (Hall e (proj1 (list_elem_of_In _ _) He)).
  apply orb_prop in Hall as [Hw|Hs].
  - by apply bool_decide_eq_true in Hw.
  - by apply bool_decide_eq_true in Hs.
Qed.
